(** * Macro x Markets: the watchlist, alert and exposure computations of app.py

    A shallow embedding of the computational part of [src/app.py]: the
    sidebar that maintains the watchlist, the earnings-date resolver, the
    macro and earnings alert filters and the tag-concentration summary.

    Modelling conventions.
    - Python [str] values are [string]s.  [strip] and [upper] are modelled
      on ASCII text ([Py.is_ascii]): the Unicode tables of [str.upper] and
      [str.isspace] are not part of the script, and a statement that names
      the symbol stored for an input is made for ASCII input.
    - A calendar date is its day ordinal (a [Z]); a timestamp is a number of
      microseconds (the resolution of [datetime.now()]), midnight of day [d]
      being [d * US_PER_DAY].
    - The quotients the script computes in floating point ([hours_until],
      [top_share]) are kept as exact rationals [Q]; the integers involved are
      far below 2^53, where the float comparisons against 0, 48 and 1 agree
      with the exact ones.
    - An exception raised by a statement is the [Raise] outcome of the
      [result] type; statements are sequenced with [bind].
    - A pandas frame is the list of its column labels together with the list
      of its records; building one from an empty list of dicts gives a frame
      without columns, and looking up a label it does not have raises
      [KeyError]. *)

From Stdlib Require Import ZArith QArith List String Ascii Bool Lia.
From Stdlib Require Import Sorting.Sorted Sorting.Permutation.
Import ListNotations.

Local Close Scope Q_scope.
Local Open Scope string_scope.
Local Open Scope list_scope.
Local Open Scope nat_scope.

(* ================================================================= *)
(** ** Exceptions *)

Inductive exn : Type :=
| KeyError (key : string)
| IndexError
| ZeroDivisionError
| OtherError.

Inductive result (A : Type) : Type :=
| Ok (a : A)
| Raise (e : exn).

Arguments Ok {A} a.
Arguments Raise {A} e.

Definition bind {A B : Type} (r : result A) (k : A -> result B) : result B :=
  match r with
  | Ok a => k a
  | Raise e => Raise e
  end.

Notation "x <- r ;; k" := (bind r (fun x => k))
  (at level 61, r at next level, right associativity).

(** [try: body except Exception: return None] followed by [return None]. *)
Definition try_except_None {A : Type} (body : result (option A)) : result (option A) :=
  match body with
  | Ok v => Ok v
  | Raise _ => Ok None
  end.

(* ================================================================= *)
(** ** Python string operations *)

Module Py.

(** [str.isspace] on one ASCII character: TAB, LF, VT, FF, CR, the four
    separators 0x1C..0x1F and the space. *)
Definition is_space (c : ascii) : bool :=
  let n := nat_of_ascii c in
  ((9 <=? n) && (n <=? 13)) || ((28 <=? n) && (n <=? 32)).

Definition is_lower (c : ascii) : bool :=
  let n := nat_of_ascii c in (97 <=? n) && (n <=? 122).

(** [str.upper] on ASCII text: the letters a-z become A-Z. *)
Definition upper_char (c : ascii) : ascii :=
  if is_lower c then ascii_of_nat (nat_of_ascii c - 32) else c.

Fixpoint upper (s : string) : string :=
  match s with
  | EmptyString => EmptyString
  | String c r => String (upper_char c) (upper r)
  end.

Fixpoint lstrip (s : string) : string :=
  match s with
  | EmptyString => EmptyString
  | String c r => if is_space c then lstrip r else s
  end.

Fixpoint rstrip (s : string) : string :=
  match s with
  | EmptyString => EmptyString
  | String c r =>
      match rstrip r with
      | EmptyString => if is_space c then EmptyString else String c EmptyString
      | r' => String c r'
      end
  end.

(** [str.strip] on ASCII text. *)
Definition strip (s : string) : string := rstrip (lstrip s).

(** [sep.join(parts)] *)
Fixpoint join (sep : string) (parts : list string) : string :=
  match parts with
  | [] => EmptyString
  | [p] => p
  | p :: rest => String.append p (String.append sep (join sep rest))
  end.

(** [s.split(c)] for a one-character separator: never returns [[]]. *)
Fixpoint split (sep : ascii) (s : string) : list string :=
  match s with
  | EmptyString => [EmptyString]
  | String c r =>
      if Ascii.eqb c sep then EmptyString :: split sep r
      else match split sep r with
           | [] => [String c EmptyString]
           | w :: ws => String c w :: ws
           end
  end.

(** [x in xs] for a list of strings. *)
Definition mem (x : string) (xs : list string) : bool :=
  existsb (String.eqb x) xs.

(** The last character of a non-empty string. *)
Fixpoint last_char (c : ascii) (s : string) : ascii :=
  match s with
  | EmptyString => c
  | String d r => last_char d r
  end.

(** No leading and no trailing whitespace. *)
Definition trimmed (s : string) : bool :=
  match s with
  | EmptyString => true
  | String c r => negb (is_space c) && negb (is_space (last_char c r))
  end.

(** ASCII text: every character below 128. *)
Definition is_ascii_char (c : ascii) : bool := nat_of_ascii c <? 128.

Fixpoint is_ascii (s : string) : bool :=
  match s with
  | EmptyString => true
  | String c r => is_ascii_char c && is_ascii r
  end.


(** Empty, or starting with a character that is not a space. *)
Definition starts_clean (s : string) : Prop :=
  match s with
  | EmptyString => True
  | String c _ => is_space c = false
  end.

Fixpoint no_lower (s : string) : bool :=
  match s with
  | EmptyString => true
  | String c r => negb (is_lower c) && no_lower r
  end.

End Py.

(* ================================================================= *)
(** ** The watchlist (sidebar, lines 12-25) *)

Module Watchlist.

Definition initial : list string := ["AAPL"; "MSFT"].

(** [st.text_input(...).strip().upper()] *)
Definition new_ticker (text : string) : string := Py.upper (Py.strip text).

(** One run of the sidebar block: [text] is the content of the text
    input, [add_clicked] and [clear_clicked] the two button values. *)
Definition sidebar (text : string) (add_clicked clear_clicked : bool)
           (watchlist : list string) : list string :=
  let t := new_ticker text in
  let watchlist :=
    if add_clicked && negb (String.eqb t "") then
      if negb (Py.mem t watchlist) then watchlist ++ [t] else watchlist
    else watchlist in
  if clear_clicked then [] else watchlist.

Definition add (text : string) (watchlist : list string) : list string :=
  sidebar text true false watchlist.

Definition clear (watchlist : list string) : list string :=
  sidebar "" false true watchlist.

(** The watchlists a session can hold. *)
Inductive reachable : list string -> Prop :=
| reach_init : reachable initial
| reach_step : forall text a c w,
    reachable w -> reachable (sidebar text a c w).

(** The watchlists of a session in which only ASCII text is typed. *)
Inductive reachable_ascii : list string -> Prop :=
| reach_ascii_init : reachable_ascii initial
| reach_ascii_step : forall text a c w,
    Py.is_ascii text = true ->
    reachable_ascii w -> reachable_ascii (sidebar text a c w).

End Watchlist.

(* ================================================================= *)
(** ** Dates and timestamps *)

Definition US_PER_HOUR : positive := 3600000000.
Definition US_PER_DAY : Z := 24 * Z.pos US_PER_HOUR.

(** [pd.to_datetime] of a calendar date: midnight of that day. *)
Definition midnight (d : Z) : Z := (d * US_PER_DAY)%Z.

(** [Timestamp.date()]: the day a timestamp falls on. *)
Definition date_of (ts : Z) : Z := (ts / US_PER_DAY)%Z.

(* ================================================================= *)
(** ** Frames *)

Record DataFrame (R : Type) : Type := mkDataFrame {
  columns : list string;
  records : list R
}.

Arguments mkDataFrame {R} columns records.
Arguments columns {R} d.
Arguments records {R} d.

(** [pd.DataFrame(rows)] for a list of dicts that all have the keys [keys]:
    the columns are the keys met in the rows, so an empty list gives a frame
    with no column at all. *)
Definition pd_DataFrame {R : Type} (keys : list string) (rows : list R) : DataFrame R :=
  mkDataFrame (match rows with [] => [] | _ :: _ => keys end) rows.

(** Looking up a column label. *)
Definition get_label {R : Type} (df : DataFrame R) (key : string) : result unit :=
  if Py.mem key (columns df) then Ok tt else Raise (KeyError key).

Fixpoint get_labels {R : Type} (df : DataFrame R) (keys : list string) : result unit :=
  match keys with
  | [] => Ok tt
  | k :: ks => _ <- get_label df k ;; get_labels df ks
  end.

Section Sorting.

Context {R : Type} (leb : R -> R -> bool).

(** [x] goes in front of the first record it is not greater than, so records
    with equal keys keep their order. *)
Fixpoint insert_sorted (x : R) (l : list R) : list R :=
  match l with
  | [] => [x]
  | h :: t => if leb x h then x :: l else h :: insert_sorted x t
  end.

Fixpoint stable_sort (l : list R) : list R :=
  match l with
  | [] => []
  | x :: t => insert_sorted x (stable_sort t)
  end.

(** The order a comparison function decides. *)
Definition le_of (a b : R) : Prop := leb a b = true.

(** [df.sort_values(by)]: every label of [by] is looked up first. *)
Definition sort_values (by_ : list string) (df : DataFrame R) : result (DataFrame R) :=
  _ <- get_labels df by_ ;;
  Ok (mkDataFrame (columns df) (stable_sort (records df))).

End Sorting.

(* ================================================================= *)
(** ** Macro calendar and macro alert (lines 37-47 and 84-98) *)

Module Macro.

Record MacroEvent : Type := mkEvent {
  date : Z;
  event : string;
  why : string
}.

Definition macro_events (today : Z) : list MacroEvent :=
  [ mkEvent (today + 1) "CPI (Inflation) release"
      "Can move rates & growth stocks; affects valuations.";
    mkEvent (today + 7) "FOMC / Fed decision"
      "Rate path + forward guidance; big driver of market regime.";
    mkEvent (today + 14) "Jobs report (NFP)"
      "Labor tightness → inflation pressure → rate expectations." ].

Definition date_leb (a b : MacroEvent) : bool := (date a <=? date b)%Z.

(** Lines 46-47: the frame sorted by date, its dates turned to timestamps
    (kept as day ordinals here, [midnight] being applied where they are
    used). *)
Definition macro_df (events : list MacroEvent) : result (DataFrame MacroEvent) :=
  df <- sort_values date_leb ["date"] (pd_DataFrame ["date"; "event"; "why"] events) ;;
  _ <- get_label df "date" ;;
  Ok df.

(** Line 88: [(date - Timestamp(now)) / Timedelta(hours=1)]. *)
Definition hours_until (now : Z) (e : MacroEvent) : Q :=
  Qmake (midnight (date e) - now) US_PER_HOUR.

Definition within (now : Z) (horizon : Q) (e : MacroEvent) : bool :=
  Qle_bool 0 (hours_until now e) && Qle_bool (hours_until now e) horizon.

(** Line 90 with the horizon as a parameter. *)
Definition events_within (now : Z) (horizon : Q) (df : DataFrame MacroEvent) : list MacroEvent :=
  filter (within now horizon) (records df).

Definition soon_macro (now : Z) (df : DataFrame MacroEvent) : list MacroEvent :=
  events_within now (Qmake 48 1) df.

Inductive macro_alert : Type :=
| imminent (top : MacroEvent)
| clear.

(** Lines 92-98. *)
Definition macro_banner (now : Z) (df : DataFrame MacroEvent) : macro_alert :=
  match soon_macro now df with
  | top :: _ => imminent top
  | [] => clear
  end.

Definition macro_alert_of (now : Z) (events : list MacroEvent) : result macro_alert :=
  df <- macro_df events ;;
  Ok (macro_banner now df).

(** The bound of the alert on the integers: [0 <= date - now <= 48 hours],
    in microseconds. *)
Definition in_window (now : Z) (e : MacroEvent) : Prop :=
  (0 <= midnight (date e) - now <= 48 * Z.pos US_PER_HOUR)%Z.

End Macro.

(* ================================================================= *)
(** ** Earnings resolver and earnings alert (lines 54-80 and 100-108) *)

Module Earnings.

(** What a cell of the upstream calendar can hold. *)
(** What a cell of the upstream calendar can hold, by what
    [pd.to_datetime] does with it. *)
Inductive scalar : Type :=
| Stamp (ts : Z)          (* parsed to a timestamp *)
| NoneVal                 (* returned as [None]: [None], on pandas before 3 *)
| NaN                     (* returned as [NaT]: NaN, [NaT]; [None] on pandas 3 *)
| Junk.                   (* rejected with an exception *)

#[local] Unset Elimination Schemes.

Inductive cell : Type :=
| Scalar (v : scalar)
| Seq (items : list scalar)    (* a list or tuple *)
| Arr (row : list cell).       (* a row of the frame, as an array *)

#[local] Set Elimination Schemes.

(** What [yf.Ticker(ticker).calendar] does: it raises, or it gives
    something that is not a frame (a dict, [None]), or a frame, given by
    its labelled rows. *)
Inductive calendar : Type :=
| CalRaises
| CalOther
| CalFrame (rows : list (string * list cell)).

(** What [pd.to_datetime] returns when it does return. *)
Inductive resolved : Type :=
| Timestamp (ts : Z)
| NaT
| DatetimeIndex (items : list (option Z)).

Definition frame_empty (rows : list (string * list cell)) : bool :=
  match rows with
  | [] => true
  | (_, []) :: _ => true
  | (_, _ :: _) :: _ => false
  end.

Definition in_index (label : string) (rows : list (string * list cell)) : bool :=
  existsb (fun r => String.eqb label (fst r)) rows.

(** The rows of the frame that carry [label]. *)
Definition labelled (label : string) (rows : list (string * list cell))
  : list (string * list cell) :=
  filter (fun r => String.eqb label (fst r)) rows.

(** [cal.loc[label].values[0]]: with one row of that label [loc] gives the
    row and [values[0]] its first cell; with several it gives a frame, and
    [values[0]] is the first of these rows, as an array. *)
Definition loc_values0 (label : string) (rows : list (string * list cell)) : result cell :=
  match labelled label rows with
  | [] => Raise (KeyError label)
  | [(_, vs)] =>
      match vs with
      | v :: _ => Ok v
      | [] => Raise IndexError
      end
  | (_, vs) :: _ :: _ => Ok (Arr vs)
  end.

(** The cells of an array when all of them are scalars. *)
Fixpoint scalars_of (row : list cell) : option (list scalar) :=
  match row with
  | [] => Some []
  | Scalar v :: rest => option_map (cons v) (scalars_of rest)
  | _ :: _ => None
  end.

Fixpoint to_datetime_items (items : list scalar) : result (list (option Z)) :=
  match items with
  | [] => Ok []
  | Stamp ts :: rest => r <- to_datetime_items rest ;; Ok (Some ts :: r)
  | NoneVal :: rest => r <- to_datetime_items rest ;; Ok (None :: r)
  | NaN :: rest => r <- to_datetime_items rest ;; Ok (None :: r)
  | Junk :: _ => Raise OtherError
  end.

Definition to_datetime (val : cell) : result (option resolved) :=
  match val with
  | Scalar (Stamp ts) => Ok (Some (Timestamp ts))
  | Scalar NoneVal => Ok None
  | Scalar NaN => Ok (Some NaT)
  | Scalar Junk => Raise OtherError
  | Seq items => r <- to_datetime_items items ;; Ok (Some (DatetimeIndex r))
  | Arr row =>
      match scalars_of row with
      | Some items => r <- to_datetime_items items ;; Ok (Some (DatetimeIndex r))
      | None => Raise OtherError
      end
  end.

(** The body of the [try] block, lines 56-65, and the [return None] of
    line 68 when no branch returned. *)
Definition try_body (cal : calendar) : result (option resolved) :=
  match cal with
  | CalRaises => Raise OtherError
  | CalOther => Ok None
  | CalFrame rows =>
      if negb (frame_empty rows) then
        if in_index "Earnings Date" rows then
          val <- loc_values0 "Earnings Date" rows ;;
          let val := match val with
                     | Seq (first :: _) => Scalar first
                     | _ => val
                     end in
          to_datetime val
        else Ok None
      else Ok None
  end.

Definition safe_earnings_date (yf_calendar : string -> calendar) (ticker : string)
  : result (option resolved) :=
  try_except_None (try_body (yf_calendar ticker)).

(** The earliest of a non-empty list of candidate dates, as the
    specification asks for. *)
Definition spec_earliest (first : Z) (others : list Z) : Z :=
  fold_left Z.min others first.

Record EarnRow : Type := mkEarnRow {
  ticker : string;
  earnings_date : option Z;   (* the ISO string of the date: ordered as the dates are *)
  days_until : option Z
}.

(** Lines 73-77 for one ticker: [ed.date()] is not callable on an index,
    and on [NaT] the subtraction of line 76 raises. *)
Definition earn_row (today : Z) (tic : string) (ed : option resolved) : result EarnRow :=
  match ed with
  | None => Ok (mkEarnRow tic None None)
  | Some (Timestamp ts) => Ok (mkEarnRow tic (Some (date_of ts)) (Some (date_of ts - today)%Z))
  | Some NaT => Raise OtherError
  | Some (DatetimeIndex _) => Raise OtherError
  end.

(** Lines 70-77. *)
Fixpoint rows_of (today : Z) (yf_calendar : string -> calendar) (watchlist : list string)
  : result (list EarnRow) :=
  match watchlist with
  | [] => Ok []
  | tic :: rest =>
      ed <- safe_earnings_date yf_calendar tic ;;
      row <- earn_row today tic ed ;;
      rows <- rows_of today yf_calendar rest ;;
      Ok (row :: rows)
  end.

(** The order of [sort_values(["earnings_date", "ticker"], na_position="last")]. *)
Definition earn_leb (a b : EarnRow) : bool :=
  match earnings_date a, earnings_date b with
  | Some x, Some y => (x <? y)%Z || ((x =? y)%Z && String.leb (ticker a) (ticker b))
  | Some _, None => true
  | None, Some _ => false
  | None, None => String.leb (ticker a) (ticker b)
  end.

(** Line 79. *)
Definition earn_df (rows : list EarnRow) : result (DataFrame EarnRow) :=
  sort_values earn_leb ["earnings_date"; "ticker"]
    (pd_DataFrame ["ticker"; "earnings_date"; "days_until"] rows).

Definition notna (r : EarnRow) : bool :=
  match days_until r with Some _ => true | None => false end.

Definition in_next_7d (r : EarnRow) : bool :=
  match days_until r with
  | Some d => (0 <=? d)%Z && (d <=? 7)%Z
  | None => false
  end.

(** Lines 101-102. *)
Definition soon_earn_7d (df : DataFrame EarnRow) : result (list EarnRow) :=
  _ <- get_label df "days_until" ;;
  let earn_df_alert := filter notna (records df) in
  Ok (filter in_next_7d earn_df_alert).

Inductive earnings_alert : Type :=
| upcoming (tickers : list string)
| none.

(** Lines 104-108. *)
Definition earnings_banner (soon : list EarnRow) : earnings_alert :=
  match soon with
  | [] => none
  | _ :: _ => upcoming (map ticker soon)
  end.

(** An earnings record as the specification has it, and its row. *)
Definition record_row (today : Z) (rec : string * option Z) : EarnRow :=
  mkEarnRow (fst rec) (snd rec) (option_map (fun d => (d - today)%Z) (snd rec)).

(** The earnings alert from the rows of the table. *)
Definition earnings_alert_of_rows (rows : list EarnRow) : result earnings_alert :=
  df <- earn_df rows ;;
  soon <- soon_earn_7d df ;;
  Ok (earnings_banner soon).

Definition earnings_alert_of (today : Z) (recs : list (string * option Z)) : result earnings_alert :=
  earnings_alert_of_rows (map (record_row today) recs).

(** The bound of the alert: a present date within the next seven days. *)
Definition due (today : Z) (r : EarnRow) : Prop :=
  exists d, earnings_date r = Some d /\ (0 <= d - today <= 7)%Z.

End Earnings.

(* ================================================================= *)
(** ** Exposure (lines 114-154) *)

Module Exposure.

Definition sector_to_tags : list (string * list string) :=
  [ ("Technology", ["rate-sensitive"; "growth"]);
    ("Communication Services", ["rate-sensitive"; "growth"]);
    ("Consumer Discretionary", ["cyclical"; "rate-sensitive"]);
    ("Financial Services", ["rate-sensitive"; "macro-sensitive"]);
    ("Real Estate", ["rate-sensitive"]);
    ("Utilities", ["defensive"; "rate-sensitive"]);
    ("Consumer Staples", ["defensive"; "inflation-sensitive"]);
    ("Health Care", ["defensive"]);
    ("Industrials", ["cyclical"]);
    ("Energy", ["inflation-sensitive"; "commodities"]);
    ("Basic Materials", ["inflation-sensitive"; "commodities"]) ].

(** [d.get(key, default)] *)
Fixpoint dict_get {V : Type} (d : list (string * V)) (key : string) (default : V) : V :=
  match d with
  | [] => default
  | (k, v) :: rest => if String.eqb key k then v else dict_get rest key default
  end.

(** Lines 128-133: [info] raising is turned into [None]. *)
Definition get_sector (yf_info : string -> result (option string)) (ticker : string)
  : option string :=
  match yf_info ticker with
  | Ok s => s
  | Raise _ => None
  end.

(** Line 139: an absent or empty sector is falsy. *)
Definition tags_of (sector : option string) : list string :=
  match sector with
  | Some s => if String.eqb s "" then ["unknown"] else dict_get sector_to_tags s ["unknown"]
  | None => ["unknown"]
  end.

Record ExRow : Type := mkExRow {
  ticker : string;
  sector : option string;
  tags : string
}.

(** Lines 136-140. *)
Definition ex_rows (sector_of : string -> option string) (watchlist : list string) : list ExRow :=
  map (fun tic => let sector := sector_of tic in
                  mkExRow tic sector (Py.join ", " (tags_of sector)))
      watchlist.

Definition ex_df (sector_of : string -> option string) (watchlist : list string) : DataFrame ExRow :=
  pd_DataFrame ["ticker"; "sector"; "tags"] (ex_rows sector_of watchlist).

(** The tags one row contributes, line 149. *)
Definition row_tags (r : ExRow) : list string :=
  map Py.strip (Py.split "," (tags r)).

(** Lines 147-149; every [tags] cell is a string, so [fillna] changes
    nothing. *)
Definition all_tags (df : DataFrame ExRow) : result (list string) :=
  _ <- get_label df "tags" ;;
  Ok (flat_map row_tags (records df)).

(** Counting one more occurrence of [t], new values going last. *)
Fixpoint count_into (t : string) (acc : list (string * nat)) : list (string * nat) :=
  match acc with
  | [] => [(t, 1)]
  | (k, c) :: rest =>
      if String.eqb k t then (k, S c) :: rest else (k, c) :: count_into t rest
  end.

Definition tally (l : list string) : list (string * nat) :=
  fold_left (fun acc t => count_into t acc) l [].

Definition count_geb (a b : string * nat) : bool := snd b <=? snd a.

(** [pd.Series(l).value_counts()]: the distinct values with their counts,
    highest count first, equal counts in the order the values were first
    met. *)
Definition value_counts (l : list string) : list (string * nat) :=
  stable_sort count_geb (tally l).

(** [a / b]; the script only divides by [max(_, 1)]. *)
Definition true_div (a b : nat) : result Q :=
  match b with
  | O => Raise ZeroDivisionError
  | S _ => Ok (Qmake (Z.of_nat a) (Pos.of_nat b))
  end.

Record ExposureSummary : Type := mkSummary {
  tag_counts : list (string * nat);
  dominant_tag : string;
  dominant_share : Q
}.

(** Lines 136-154. *)
Definition compute (watchlist : list string) (sector_of : string -> option string)
  : result ExposureSummary :=
  tags <- all_tags (ex_df sector_of watchlist) ;;
  let tag_counts := value_counts tags in
  let top_tag := match tag_counts with
                 | (t, _) :: _ => t
                 | [] => "unknown"
                 end in
  top_share <- match tag_counts with
               | (_, c) :: _ => true_div c (Nat.max (List.length watchlist) 1)
               | [] => Ok (Qmake 0 1)
               end ;;
  Ok (mkSummary tag_counts top_tag top_share).

(** [counts[t]], 0 when [t] is not a key. *)
Fixpoint count_of (t : string) (acc : list (string * nat)) : nat :=
  match acc with
  | [] => 0
  | (k, c) :: rest => if String.eqb k t then c else count_of t rest
  end.

(** How many times [t] occurs in [l]. *)
Fixpoint occurrences (t : string) (l : list string) : nat :=
  match l with
  | [] => 0
  | x :: rest => (if String.eqb x t then 1 else 0) + occurrences t rest
  end.

(** The tags of the whole watchlist, one list per ticker. *)
Definition watchlist_tags (sector_of : string -> option string) (watchlist : list string)
  : list string :=
  flat_map (fun tic => tags_of (sector_of tic)) watchlist.

End Exposure.

(* ================================================================= *)
(** ** One evaluation of the script *)

Record Evaluation : Type := mkEvaluation {
  macro_alert : Macro.macro_alert;
  earnings_alert : Earnings.earnings_alert;
  exposure : Exposure.ExposureSummary
}.

(** The statements in the order the script runs them, for a given calendar,
    the script's own being [Macro.macro_events today]. *)
Definition evaluate (today now : Z) (events : list Macro.MacroEvent)
           (yf_calendar : string -> Earnings.calendar)
           (yf_info : string -> result (option string))
           (watchlist : list string) : result Evaluation :=
  macro_df <- Macro.macro_df events ;;
  rows <- Earnings.rows_of today yf_calendar watchlist ;;
  earn_df <- Earnings.earn_df rows ;;
  let macro := Macro.macro_banner now macro_df in
  soon_earn_7d <- Earnings.soon_earn_7d earn_df ;;
  let earn := Earnings.earnings_banner soon_earn_7d in
  summary <- Exposure.compute watchlist (Exposure.get_sector yf_info) ;;
  Ok (mkEvaluation macro earn summary).

(* ================================================================= *)
(** ** Next event, memo and copy text (lines 157 and 172-219) *)

Module Memo.

(** [df.iloc[0]] *)
Definition iloc0 {R : Type} (df : DataFrame R) : result R :=
  match records df with
  | [] => Raise IndexError
  | r :: _ => Ok r
  end.

(** Lines 157 and 175-176: [macro_df.sort_values("date").iloc[0]["event"]]. *)
Definition next_event (macro_df : DataFrame Macro.MacroEvent) : result string :=
  sorted <- sort_values Macro.date_leb ["date"] macro_df ;;
  top <- iloc0 sorted ;;
  Ok (Macro.event top).

Definition next_event_of (events : list Macro.MacroEvent) : result string :=
  macro_df <- Macro.macro_df events ;;
  next_event macro_df.

(** Lines 179-188. *)
Definition exposure_line (top_tag : string) : string :=
  if String.eqb top_tag "rate-sensitive" then
    "Your watchlist leans toward rate-sensitive, growth-oriented names."
  else if String.eqb top_tag "cyclical" then
    "Your watchlist has meaningful exposure to cyclical sectors."
  else if String.eqb top_tag "defensive" then
    "Your watchlist is relatively defensive compared to the broader market."
  else if String.eqb top_tag "inflation-sensitive" then
    "Your watchlist has notable inflation-sensitive exposure."
  else
    "Your watchlist has mixed exposure across sectors.".

(** Lines 191-194. *)
Definition earn_line (soon_earn_7d : list Earnings.EarnRow) : string :=
  match soon_earn_7d with
  | _ :: _ =>
      String.append "Earnings to watch this week include "
        (String.append (Py.join ", " (map Earnings.ticker soon_earn_7d)) ".")
  | [] => "There are no major watchlist earnings scheduled in the coming week."
  end.

(** Lines 197-205. *)
Definition opener (tone macro_name : string) : string :=
  if String.eqb tone "Bull" then
    String.append "This week’s key macro focus is **"
      (String.append macro_name
         "**—a potential tailwind if it comes in supportive for risk sentiment.")
  else if String.eqb tone "Bear" then
    String.append "This week’s key macro focus is **"
      (String.append macro_name
         "**—a key risk if it surprises against expectations.")
  else
    String.append "This week’s key macro focus is **"
      (String.append macro_name
         "**, which may influence rate expectations and broader risk sentiment.").

Definition closer (tone : string) : string :=
  if String.eqb tone "Bull" then
    "Net: the setup looks constructive if the data validates the current narrative, with upside led by rate-sensitive names."
  else if String.eqb tone "Bear" then
    "Net: caution is warranted; adverse macro outcomes could drive downside volatility, particularly in rate-sensitive sectors."
  else
    "Net: macro data is likely to be the primary near-term driver, with market reactions hinging on surprises versus expectations.".

(** Lines 207-212. *)
Definition memo_text (tone macro_name top_tag : string)
           (soon_earn_7d : list Earnings.EarnRow) : string :=
  String.append (opener tone macro_name)
    (String.append " "
       (String.append (exposure_line top_tag)
          (String.append " "
             (String.append (earn_line soon_earn_7d)
                (String.append " " (closer tone)))))).

(** [s.replace("**", "")]: the occurrences are taken from the left and do
    not overlap. *)
Fixpoint replace_stars (s : string) : string :=
  match s with
  | EmptyString => EmptyString
  | String c r =>
      match r with
      | String d r' =>
          if Ascii.eqb c "*" && Ascii.eqb d "*" then replace_stars r'
          else String c (replace_stars r)
      | EmptyString => String c EmptyString
      end
  end.

(** Line 217: the text of the copy box. *)
Definition copy_memo (tone macro_name top_tag : string)
           (soon_earn_7d : list Earnings.EarnRow) : string :=
  replace_stars (memo_text tone macro_name top_tag soon_earn_7d).

(** Two stars side by side somewhere in [s]. *)
Fixpoint has_stars (s : string) : bool :=
  match s with
  | EmptyString => false
  | String c r =>
      match r with
      | String d _ => (Ascii.eqb c "*" && Ascii.eqb d "*") || has_stars r
      | EmptyString => false
      end
  end.

End Memo.

(* ================================================================= *)
(** ** Vocabulary of the statements *)

Module Vocabulary.


(** Reading the counts from the left, [a] is met before [b], or neither is
    met. *)
Fixpoint precedes (a b : string) (acc : list (string * nat)) : bool :=
  match acc with
  | [] => true
  | (k, _) :: rest =>
      if String.eqb k a then true
      else if String.eqb k b then false
      else precedes a b rest
  end.

(** The first entry, from the left, whose count no entry exceeds. *)
Fixpoint first_max (acc : list (string * nat)) : option (string * nat) :=
  match acc with
  | [] => None
  | x :: rest =>
      match first_max rest with
      | None => Some x
      | Some m => if Exposure.count_geb x m then Some x else Some m
      end
  end.

(** [b] is counted no more often than [a], and not met before it. *)
Definition dominated (a b : string) (acc : list (string * nat)) : Prop :=
  Exposure.count_of b acc <= Exposure.count_of a acc
  /\ precedes a b acc = true.

(** A list of tags in which [b], when present, comes right after [a]. *)
Inductive paired (a b : string) : list string -> Prop :=
| paired_nil : paired a b []
| paired_pair : forall l, paired a b l -> paired a b (a :: b :: l)
| paired_first : forall l, paired a b l -> paired a b (a :: l)
| paired_other : forall t l, t <> a -> t <> b -> paired a b l -> paired a b (t :: l).

(** The tags of the table, and [unknown]. *)
Definition tag_vocabulary : list string :=
  ["rate-sensitive"; "growth"; "cyclical"; "macro-sensitive"; "defensive";
   "inflation-sensitive"; "commodities"; "unknown"].

(** The upstream gives a sector for no ticker of the watchlist. *)
Definition no_sector_data (yf_info : string -> result (option string))
           (watchlist : list string) : Prop :=
  forall tic, In tic watchlist ->
              (exists e, yf_info tic = Raise e) \/ yf_info tic = Ok None.

(** The resolver gives a timestamp or [None] for every ticker. *)
Definition scalar_dates (yf_calendar : string -> Earnings.calendar)
           (watchlist : list string) : Prop :=
  forall tic, In tic watchlist ->
    Earnings.safe_earnings_date yf_calendar tic = Ok None
    \/ exists ts, Earnings.safe_earnings_date yf_calendar tic
                   = Ok (Some (Earnings.Timestamp ts)).

End Vocabulary.

(* ================================================================= *)
(** * Properties *)

(** ** The result type *)

Lemma try_except_None_returns {A : Type} (body : result (option A)) :
  exists v, try_except_None body = Ok v.
Proof. destruct body as [v | e]; simpl; eauto. Qed.

Lemma get_labels_ok {R : Type} (df : DataFrame R) (keys : list string) :
  (forall k, In k keys -> Py.mem k (columns df) = true) ->
  get_labels df keys = Ok tt.
Proof.
  induction keys as [| k ks IH]; intros H; simpl; [reflexivity |].
  unfold get_label. rewrite (H k (or_introl eq_refl)). simpl.
  apply IH. intros k' Hk'. apply H. now right.
Qed.

(** ** The stable sort *)

Section SortingFacts.

Context {R : Type} (leb : R -> R -> bool).
Hypothesis leb_total : forall a b, leb a b = true \/ leb b a = true.
Hypothesis leb_trans : forall a b c, leb a b = true -> leb b c = true -> leb a c = true.


Lemma insert_sorted_perm (x : R) (l : list R) :
  Permutation (insert_sorted leb x l) (x :: l).
Proof.
  induction l as [| h t IH]; simpl; [apply Permutation_refl |].
  destruct (leb x h); [apply Permutation_refl |].
  eapply perm_trans; [apply perm_skip, IH | apply perm_swap].
Qed.

Lemma stable_sort_perm (l : list R) : Permutation (stable_sort leb l) l.
Proof.
  induction l as [| x t IH]; simpl; [constructor |].
  eapply perm_trans; [apply insert_sorted_perm | now apply perm_skip].
Qed.

Lemma stable_sort_In (l : list R) (x : R) : In x (stable_sort leb l) <-> In x l.
Proof.
  split; apply Permutation_in;
    [apply stable_sort_perm | apply Permutation_sym, stable_sort_perm].
Qed.

Lemma stable_sort_nil_iff (l : list R) : stable_sort leb l = [] <-> l = [].
Proof.
  split; intros H.
  - apply Permutation_nil. rewrite <- H. apply stable_sort_perm.
  - now subst.
Qed.

Lemma insert_sorted_strongly (x : R) (l : list R) :
  StronglySorted (le_of leb) l -> StronglySorted (le_of leb) (insert_sorted leb x l).
Proof.
  induction 1 as [| h t Hs IH Hall]; simpl.
  - repeat constructor.
  - destruct (leb x h) eqn:E.
    + constructor; [now constructor |].
      constructor; [exact E |].
      eapply Forall_impl; [| exact Hall].
      intros y Hy. exact (leb_trans _ _ _ E Hy).
    + constructor; [exact IH |].
      assert (Hhx : le_of leb h x) by (destruct (leb_total x h); [congruence | assumption]).
      eapply Permutation_Forall.
      * apply Permutation_sym, insert_sorted_perm.
      * now constructor.
Qed.

Lemma stable_sort_strongly (l : list R) : StronglySorted (le_of leb) (stable_sort leb l).
Proof.
  induction l as [| x t IH]; simpl; [constructor | now apply insert_sorted_strongly].
Qed.

End SortingFacts.

Lemma StronglySorted_filter {R : Type} (le : R -> R -> Prop) (f : R -> bool) (l : list R) :
  StronglySorted le l -> StronglySorted le (filter f l).
Proof.
  induction 1 as [| h t Hs IH Hall]; simpl; [constructor |].
  destruct (f h); [| exact IH].
  constructor; [exact IH |].
  apply Forall_forall. intros y Hy. apply filter_In in Hy.
  rewrite Forall_forall in Hall. now apply Hall.
Qed.

Lemma StronglySorted_map {A B : Type} (leA : A -> A -> Prop) (leB : B -> B -> Prop)
      (g : A -> B) (l : list A) :
  (forall a b, leA a b -> leB (g a) (g b)) ->
  StronglySorted leA l -> StronglySorted leB (map g l).
Proof.
  intros Hg. induction 1 as [| h t Hs IH Hall]; simpl; constructor; [exact IH |].
  apply Forall_forall. intros y Hy. apply in_map_iff in Hy as [a [<- Ha]].
  rewrite Forall_forall in Hall. auto.
Qed.

Lemma StronglySorted_head_least {R : Type} (le : R -> R -> Prop) (h : R) (t : list R) :
  StronglySorted le (h :: t) -> forall x, In x t -> le h x.
Proof.
  intros H x Hx. inversion H as [| ? ? _ Hall]; subst.
  rewrite Forall_forall in Hall. now apply Hall.
Qed.

(** ** Strings *)

Lemma mem_In (x : string) (xs : list string) : Py.mem x xs = true <-> In x xs.
Proof.
  unfold Py.mem. rewrite existsb_exists. split.
  - intros [y [Hy E]]. apply String.eqb_eq in E. now subst.
  - intros H. exists x. split; [exact H | apply String.eqb_refl].
Qed.

Lemma is_space_upper_char (c : ascii) : Py.is_space (Py.upper_char c) = Py.is_space c.
Proof. destruct c as [[] [] [] [] [] [] [] []]; reflexivity. Qed.

Lemma is_lower_upper_char (c : ascii) : Py.is_lower (Py.upper_char c) = false.
Proof. destruct c as [[] [] [] [] [] [] [] []]; reflexivity. Qed.

Lemma upper_char_idem (c : ascii) : Py.upper_char (Py.upper_char c) = Py.upper_char c.
Proof. unfold Py.upper_char at 1. now rewrite is_lower_upper_char. Qed.

Lemma upper_idem (s : string) : Py.upper (Py.upper s) = Py.upper s.
Proof. induction s as [| c r IH]; simpl; [reflexivity |]. now rewrite upper_char_idem, IH. Qed.

Lemma no_lower_upper (s : string) : Py.no_lower (Py.upper s) = true.
Proof. induction s as [| c r IH]; simpl; [reflexivity |]. now rewrite is_lower_upper_char, IH. Qed.

Lemma lstrip_upper (s : string) : Py.lstrip (Py.upper s) = Py.upper (Py.lstrip s).
Proof.
  induction s as [| c r IH]; simpl; [reflexivity |].
  rewrite is_space_upper_char. destruct (Py.is_space c); [exact IH | reflexivity].
Qed.

Lemma rstrip_upper (s : string) : Py.rstrip (Py.upper s) = Py.upper (Py.rstrip s).
Proof.
  induction s as [| c r IH]; simpl; [reflexivity |].
  rewrite IH. destruct (Py.rstrip r) as [| d r']; simpl; [| reflexivity].
  rewrite is_space_upper_char. now destruct (Py.is_space c).
Qed.

Lemma strip_upper (s : string) : Py.strip (Py.upper s) = Py.upper (Py.strip s).
Proof. unfold Py.strip. now rewrite lstrip_upper, rstrip_upper. Qed.

Lemma rstrip_idem (s : string) : Py.rstrip (Py.rstrip s) = Py.rstrip s.
Proof.
  induction s as [| c r IH]; simpl; [reflexivity |].
  destruct (Py.rstrip r) as [| d r'] eqn:E.
  - destruct (Py.is_space c) eqn:Ec; simpl; [reflexivity | now rewrite Ec].
  - change (Py.rstrip (String c (String d r'))) with
      (match Py.rstrip (String d r') with
       | EmptyString => if Py.is_space c then EmptyString else String c EmptyString
       | r'' => String c r''
       end).
    now rewrite IH.
Qed.

Lemma lstrip_starts_clean (s : string) : Py.starts_clean (Py.lstrip s).
Proof.
  induction s as [| c r IH]; simpl; [exact I |].
  destruct (Py.is_space c) eqn:E; [exact IH | exact E].
Qed.

Lemma lstrip_of_clean (s : string) : Py.starts_clean s -> Py.lstrip s = s.
Proof. destruct s as [| c r]; simpl; [reflexivity |]. now intros ->. Qed.

Lemma rstrip_starts_clean (s : string) : Py.starts_clean s -> Py.starts_clean (Py.rstrip s).
Proof.
  destruct s as [| c r]; simpl; [exact (fun H => H) |].
  intros E. destruct (Py.rstrip r); simpl; [now rewrite E | exact E].
Qed.

Lemma strip_idem (s : string) : Py.strip (Py.strip s) = Py.strip s.
Proof.
  unfold Py.strip.
  rewrite (lstrip_of_clean (Py.rstrip (Py.lstrip s))).
  - apply rstrip_idem.
  - apply rstrip_starts_clean, lstrip_starts_clean.
Qed.

Lemma rstrip_last_char (s : string) (c : ascii) (r : string) :
  Py.rstrip s = String c r -> Py.is_space (Py.last_char c r) = false.
Proof.
  revert c r. induction s as [| a t IH]; intros c r; simpl; [discriminate |].
  destruct (Py.rstrip t) as [| d r'] eqn:E.
  - destruct (Py.is_space a) eqn:Ea; [discriminate |].
    intros H. injection H as <- <-. exact Ea.
  - intros H. injection H as <- <-. simpl. now apply IH.
Qed.

Lemma trimmed_strip (s : string) : Py.trimmed (Py.strip s) = true.
Proof.
  unfold Py.strip.
  pose proof (rstrip_starts_clean _ (lstrip_starts_clean s)) as Hc.
  destruct (Py.rstrip (Py.lstrip s)) as [| c r] eqn:E; [reflexivity |].
  simpl in *. rewrite Hc. simpl.
  now rewrite (rstrip_last_char _ _ _ E).
Qed.

Lemma last_char_upper (c : ascii) (s : string) :
  Py.last_char (Py.upper_char c) (Py.upper s) = Py.upper_char (Py.last_char c s).
Proof. revert c. induction s as [| d r IH]; intros c; simpl; [reflexivity | apply IH]. Qed.

Lemma trimmed_upper (s : string) : Py.trimmed (Py.upper s) = Py.trimmed s.
Proof.
  destruct s as [| c r]; simpl; [reflexivity |].
  now rewrite last_char_upper, !is_space_upper_char.
Qed.

(** ** The watchlist *)

Lemma new_ticker_idem (text : string) :
  Watchlist.new_ticker (Watchlist.new_ticker text) = Watchlist.new_ticker text.
Proof.
  unfold Watchlist.new_ticker.
  now rewrite strip_upper, upper_idem, strip_idem.
Qed.

Lemma mem_app_last (t : string) (w : list string) : Py.mem t (w ++ [t]) = true.
Proof. apply mem_In, in_or_app. right. now left. Qed.

(** What [add] does, by cases on the normalized input. *)
Lemma add_cases (text : string) (w : list string) :
  Watchlist.add text w =
  if String.eqb (Watchlist.new_ticker text) "" || Py.mem (Watchlist.new_ticker text) w
  then w else w ++ [Watchlist.new_ticker text].
Proof.
  unfold Watchlist.add, Watchlist.sidebar. simpl.
  destruct (String.eqb (Watchlist.new_ticker text) ""); simpl; [reflexivity |].
  now destruct (Py.mem (Watchlist.new_ticker text) w).
Qed.

Lemma add_twice (text : string) (w : list string) :
  Watchlist.add text (Watchlist.add text w) = Watchlist.add text w.
Proof.
  rewrite (add_cases text w).
  destruct (String.eqb (Watchlist.new_ticker text) "") eqn:E; simpl.
  - rewrite add_cases, E. reflexivity.
  - destruct (Py.mem (Watchlist.new_ticker text) w) eqn:M.
    + rewrite add_cases, E, M. reflexivity.
    + rewrite add_cases, E, mem_app_last. reflexivity.
Qed.

(** Every ticker a session stores is its own normal form. *)
Lemma reachable_normalized (w : list string) :
  Watchlist.reachable w -> Forall (fun t => Watchlist.new_ticker t = t) w.
Proof.
  induction 1 as [| text a c w Hr IH].
  - repeat constructor.
  - unfold Watchlist.sidebar.
    destruct c; [constructor |].
    destruct (a && negb (String.eqb (Watchlist.new_ticker text) "")); [| exact IH].
    destruct (negb (Py.mem (Watchlist.new_ticker text) w)); [| exact IH].
    apply Forall_app. split; [exact IH |].
    constructor; [apply new_ticker_idem | constructor].
Qed.

(** Tickers are stored once. *)
Lemma reachable_NoDup (w : list string) : Watchlist.reachable w -> NoDup w.
Proof.
  induction 1 as [| text a c w Hr IH].
  - repeat constructor; simpl; intuition discriminate.
  - unfold Watchlist.sidebar.
    destruct c; [constructor |].
    destruct (a && negb (String.eqb (Watchlist.new_ticker text) "")); [| exact IH].
    destruct (Py.mem (Watchlist.new_ticker text) w) eqn:M; simpl; [exact IH |].
    apply NoDup_app; [exact IH | repeat constructor; intros [] | ].
    intros x Hx [<- | []].
    apply mem_In in Hx. congruence.
Qed.

Lemma add_present_normalized (text : string) (w : list string) :
  In (Watchlist.new_ticker text) w -> Watchlist.add text w = w.
Proof.
  intros H. rewrite add_cases. apply mem_In in H. rewrite H.
  now rewrite orb_true_r.
Qed.

Lemma add_blank (w : list string) : Watchlist.add "" w = w.
Proof. reflexivity. Qed.








(** C9: in every watchlist a session can hold, adding the empty string or a
    ticker that is already there leaves the watchlist as it is; [add] is a
    total function, so nothing is raised. *)
Theorem add_empty_or_present_noop (w : list string) (text : string) :
  Watchlist.reachable w ->
  text = "" \/ In text w ->
  Watchlist.add text w = w.
Proof.
  intros Hr [-> | Hin]; [apply add_blank |].
  apply add_present_normalized.
  pose proof (reachable_normalized w Hr) as Hn.
  rewrite Forall_forall in Hn. now rewrite (Hn text Hin).
Qed.

Lemma add_empty_or_present_noop_witness :
  Watchlist.reachable Watchlist.initial
  /\ ("MSFT" = "" \/ In "MSFT" Watchlist.initial)
  /\ Watchlist.add "MSFT" Watchlist.initial = Watchlist.initial.
Proof.
  assert (Hr : Watchlist.reachable Watchlist.initial) by constructor.
  assert (Hin : "MSFT" = "" \/ In "MSFT" Watchlist.initial) by (right; simpl; auto).
  split; [exact Hr |]. split; [exact Hin |].
  exact (add_empty_or_present_noop Watchlist.initial "MSFT" Hr Hin).
Defined.

(** ** The macro alert *)

Lemma date_leb_total (a b : Macro.MacroEvent) :
  Macro.date_leb a b = true \/ Macro.date_leb b a = true.
Proof. unfold Macro.date_leb. rewrite !Z.leb_le. lia. Qed.

Lemma date_leb_trans (a b c : Macro.MacroEvent) :
  Macro.date_leb a b = true -> Macro.date_leb b c = true -> Macro.date_leb a c = true.
Proof. unfold Macro.date_leb. rewrite !Z.leb_le. lia. Qed.

Lemma within_iff (now : Z) (horizon : Q) (e : Macro.MacroEvent) :
  Macro.within now horizon e = true <->
  (0 <= Macro.hours_until now e)%Q /\ (Macro.hours_until now e <= horizon)%Q.
Proof.
  unfold Macro.within. rewrite andb_true_iff, !Qle_bool_iff. reflexivity.
Qed.

(** The float comparisons of line 90 are the integer bound on microseconds. *)
Lemma within_48h_iff (now : Z) (e : Macro.MacroEvent) :
  Macro.within now (Qmake 48 1) e = true <-> Macro.in_window now e.
Proof.
  rewrite within_iff. unfold Macro.in_window, Macro.hours_until, Qle. simpl.
  split; intros [H1 H2]; split; lia.
Qed.

Lemma macro_df_nonempty (events : list Macro.MacroEvent) :
  events <> [] ->
  Macro.macro_df events =
  Ok (mkDataFrame ["date"; "event"; "why"] (stable_sort Macro.date_leb events)).
Proof.
  destruct events as [| e es]; [congruence | reflexivity].
Qed.

Lemma macro_df_empty : Macro.macro_df [] = Raise (KeyError "date").
Proof. reflexivity. Qed.

Lemma soon_macro_sorted (now : Z) (events : list Macro.MacroEvent) :
  StronglySorted (le_of Macro.date_leb)
    (filter (Macro.within now (Qmake 48 1)) (stable_sort Macro.date_leb events)).
Proof.
  apply StronglySorted_filter, stable_sort_strongly.
  - apply date_leb_total.
  - apply date_leb_trans.
Qed.

Lemma soon_macro_In (now : Z) (events : list Macro.MacroEvent) (e : Macro.MacroEvent) :
  In e (filter (Macro.within now (Qmake 48 1)) (stable_sort Macro.date_leb events)) <->
  In e events /\ Macro.in_window now e.
Proof. now rewrite filter_In, stable_sort_In, within_48h_iff. Qed.

(** C3, as the script has it: the frame of a calendar without events has no
    [date] column, so the claim is stated for calendars with at least one
    event.  The alert is then computed; it is [imminent] exactly when some
    event lies within [0, 48 hours] of [now], both ends included, the event
    shown then being one of those, of the least date among them; and it is
    [clear] when no event does. *)
Theorem macro_alert_earliest_within_48h (now : Z) (events : list Macro.MacroEvent) :
  events <> [] ->
  exists a, Macro.macro_alert_of now events = Ok a
    /\ ((exists top, a = Macro.imminent top) <->
        (exists e, In e events /\ Macro.in_window now e))
    /\ match a with
       | Macro.imminent top =>
           In top events /\ Macro.in_window now top
           /\ forall e, In e events -> Macro.in_window now e ->
                        (Macro.date top <= Macro.date e)%Z
       | Macro.clear => forall e, In e events -> ~ Macro.in_window now e
       end.
Proof.
  intros Hne. unfold Macro.macro_alert_of.
  rewrite (macro_df_nonempty events Hne). simpl.
  unfold Macro.macro_banner, Macro.soon_macro, Macro.events_within. simpl.
  pose proof (soon_macro_sorted now events) as Hs.
  pose proof (soon_macro_In now events) as Hin.
  destruct (filter (Macro.within now (Qmake 48 1)) (stable_sort Macro.date_leb events))
    as [| top rest].
  - exists Macro.clear. split; [reflexivity |]. split.
    + split; [intros [top H]; discriminate |].
      intros [e He]. apply Hin in He. destruct He.
    + intros e He Hw. apply (proj2 (Hin e)). now split.
  - exists (Macro.imminent top). split; [reflexivity |].
    destruct (proj1 (Hin top) (or_introl eq_refl)) as [Ht Hw].
    split.
    + split; [intros _; now exists top | intros _; now exists top].
    + split; [exact Ht |]. split; [exact Hw |].
      intros e He Hwe.
      destruct (proj2 (Hin e) (conj He Hwe)) as [<- | Hr]; [lia |].
      pose proof (StronglySorted_head_least _ _ _ Hs e Hr) as Hle.
      unfold le_of, Macro.date_leb in Hle. now apply Z.leb_le.
Qed.

Lemma macro_alert_earliest_within_48h_witness :
  Macro.macro_events 0 <> []
  /\ exists a, Macro.macro_alert_of 1 (Macro.macro_events 0) = Ok a
    /\ ((exists top, a = Macro.imminent top) <->
        (exists e, In e (Macro.macro_events 0) /\ Macro.in_window 1 e))
    /\ match a with
       | Macro.imminent top =>
           In top (Macro.macro_events 0) /\ Macro.in_window 1 top
           /\ forall e, In e (Macro.macro_events 0) -> Macro.in_window 1 e ->
                        (Macro.date top <= Macro.date e)%Z
       | Macro.clear => forall e, In e (Macro.macro_events 0) -> ~ Macro.in_window 1 e
       end.
Proof.
  assert (H : Macro.macro_events 0 <> []) by (simpl; discriminate).
  split; [exact H |].
  exact (macro_alert_earliest_within_48h 1 (Macro.macro_events 0) H).
Defined.

(** C3 as stated fails on the calendar without events: no event lies in the
    window, yet the alert is not [clear], the frame lookup raising. *)
Lemma macro_alert_empty_calendar_not_clear :
  (forall e, In e [] -> ~ Macro.in_window 0 e)
  /\ Macro.macro_alert_of 0 [] = Raise (KeyError "date")
  /\ Macro.macro_alert_of 0 [] <> Ok Macro.clear.
Proof.
  split; [intros e [] |]. split; [reflexivity | discriminate].
Qed.

(** C7: with [now] fixed, the events within a horizon are among the events
    within any longer horizon. *)
Theorem events_within_monotone (now : Z) (h1 h2 : Q) (df : DataFrame Macro.MacroEvent) :
  (h1 <= h2)%Q ->
  incl (Macro.events_within now h1 df) (Macro.events_within now h2 df).
Proof.
  intros Hh e. unfold Macro.events_within. rewrite !filter_In, !within_iff.
  intros [Hin [H0 H1]]. repeat split; try assumption.
  eapply Qle_trans; eassumption.
Qed.

Lemma events_within_monotone_witness :
  (Qmake 24 1 <= Qmake 48 1)%Q
  /\ incl (Macro.events_within 0 (Qmake 24 1)
             (mkDataFrame ["date"; "event"; "why"] (Macro.macro_events 0)))
          (Macro.events_within 0 (Qmake 48 1)
             (mkDataFrame ["date"; "event"; "why"] (Macro.macro_events 0))).
Proof.
  assert (H : (Qmake 24 1 <= Qmake 48 1)%Q) by (unfold Qle; simpl; lia).
  split; [exact H |].
  exact (events_within_monotone 0 (Qmake 24 1) (Qmake 48 1) _ H).
Defined.

(** The script's calendar is already in date order. *)
Lemma macro_events_sorted (today : Z) :
  stable_sort Macro.date_leb (Macro.macro_events today) = Macro.macro_events today.
Proof.
  assert (H1 : (today + 7 <=? today + 14)%Z = true) by (apply Z.leb_le; lia).
  assert (H2 : (today + 1 <=? today + 7)%Z = true) by (apply Z.leb_le; lia).
  unfold Macro.macro_events.
  repeat (cbn [stable_sort insert_sorted]; unfold Macro.date_leb;
          cbn [Macro.date]; rewrite ?H1, ?H2).
  reflexivity.
Qed.

Lemma within_false (now : Z) (e : Macro.MacroEvent) :
  ~ Macro.in_window now e -> Macro.within now (Qmake 48 1) e = false.
Proof.
  intros H. destruct (Macro.within now (Qmake 48 1) e) eqn:E; [| reflexivity].
  now apply within_48h_iff in E.
Qed.

(** C10: with the script's own calendar and [now] anywhere on the day
    [today], the alert is [imminent] and shows the CPI release, and the
    [clear] branch is not taken. *)
Theorem hard_coded_calendar_always_imminent (today now : Z) :
  (midnight today <= now < midnight (today + 1))%Z ->
  Macro.macro_alert_of now (Macro.macro_events today) =
    Ok (Macro.imminent
          (Macro.mkEvent (today + 1) "CPI (Inflation) release"
             "Can move rates & growth stocks; affects valuations."))
  /\ Macro.macro_alert_of now (Macro.macro_events today) <> Ok Macro.clear.
Proof.
  intros Hnow.
  assert (E : Macro.macro_alert_of now (Macro.macro_events today) =
              Ok (Macro.imminent
                    (Macro.mkEvent (today + 1) "CPI (Inflation) release"
                       "Can move rates & growth stocks; affects valuations."))).
  { unfold Macro.macro_alert_of.
    rewrite macro_df_nonempty by discriminate.
    cbn [bind]. rewrite macro_events_sorted.
    unfold Macro.macro_banner, Macro.soon_macro, Macro.events_within.
    cbn [records Macro.macro_events filter].
    rewrite (proj2 (within_48h_iff now _)); [reflexivity |].
    unfold Macro.in_window, midnight, US_PER_DAY, US_PER_HOUR in *.
    cbn [Macro.date]. lia. }
  split; [exact E | rewrite E; discriminate].
Qed.

Lemma hard_coded_calendar_always_imminent_witness :
  (midnight 20000 <= midnight 20000 + 43200000000 < midnight (20000 + 1))%Z
  /\ Macro.macro_alert_of (midnight 20000 + 43200000000) (Macro.macro_events 20000) =
       Ok (Macro.imminent
             (Macro.mkEvent (20000 + 1) "CPI (Inflation) release"
                "Can move rates & growth stocks; affects valuations."))
  /\ Macro.macro_alert_of (midnight 20000 + 43200000000) (Macro.macro_events 20000)
       <> Ok Macro.clear.
Proof.
  assert (H : (midnight 20000 <= midnight 20000 + 43200000000 < midnight (20000 + 1))%Z)
    by (vm_compute; split; [discriminate | reflexivity]).
  split; [exact H |].
  exact (hard_coded_calendar_always_imminent 20000 (midnight 20000 + 43200000000) H).
Defined.

(** ** The earnings resolver *)

Lemma safe_earnings_date_returns (yf_calendar : string -> Earnings.calendar) (ticker : string) :
  exists r, Earnings.safe_earnings_date yf_calendar ticker = Ok r.
Proof. unfold Earnings.safe_earnings_date. apply try_except_None_returns. Qed.

Lemma labelled_in_index (label : string) (rows : list (string * list Earnings.cell)) :
  Earnings.labelled label rows <> [] -> Earnings.in_index label rows = true.
Proof.
  unfold Earnings.labelled, Earnings.in_index.
  induction rows as [| r rest IH]; simpl; [congruence |].
  destruct (String.eqb label (fst r)); simpl; [reflexivity | exact IH].
Qed.

Lemma loc_values0_in_index (label : string) (rows : list (string * list Earnings.cell))
      (v : Earnings.cell) :
  Earnings.loc_values0 label rows = Ok v -> Earnings.in_index label rows = true.
Proof.
  unfold Earnings.loc_values0. intros H. apply labelled_in_index.
  destruct (Earnings.labelled label rows); [discriminate | discriminate].
Qed.

(** C5, as the script has it: whatever the upstream does, the resolver
    returns; when the body of its [try] raises, it returns [None]; and when
    the earnings cell holds several candidates it keeps the first of them in
    the order they came, which need not be the earliest. *)
Theorem safe_earnings_date_total_first_candidate
        (yf_calendar : string -> Earnings.calendar) (ticker : string) :
  (exists r, Earnings.safe_earnings_date yf_calendar ticker = Ok r)
  /\ (forall e, Earnings.try_body (yf_calendar ticker) = Raise e ->
                Earnings.safe_earnings_date yf_calendar ticker = Ok None)
  /\ (forall rows first others,
         yf_calendar ticker = Earnings.CalFrame rows ->
         Earnings.frame_empty rows = false ->
         Earnings.loc_values0 "Earnings Date" rows
           = Ok (Earnings.Seq (Earnings.Stamp first :: others)) ->
         Earnings.safe_earnings_date yf_calendar ticker
           = Ok (Some (Earnings.Timestamp first))).
Proof.
  split; [apply safe_earnings_date_returns |]. split.
  - intros e H. unfold Earnings.safe_earnings_date. now rewrite H.
  - intros rows first others Hcal Hne Hloc.
    unfold Earnings.safe_earnings_date, Earnings.try_body.
    rewrite Hcal, Hne, (loc_values0_in_index _ _ _ Hloc), Hloc. reflexivity.
Qed.

Lemma safe_earnings_date_total_first_candidate_witness :
  Earnings.safe_earnings_date
    (fun _ => Earnings.CalFrame
                [("Earnings Date", [Earnings.Seq [Earnings.Stamp 10; Earnings.Stamp 5]])])
    "NVDA" = Ok (Some (Earnings.Timestamp 10))
  /\ Earnings.safe_earnings_date (fun _ => Earnings.CalRaises) "NVDA" = Ok None.
Proof.
  split.
  - apply (proj2 (proj2 (safe_earnings_date_total_first_candidate
                           (fun _ => Earnings.CalFrame
                              [("Earnings Date",
                                [Earnings.Seq [Earnings.Stamp 10; Earnings.Stamp 5]])])
                           "NVDA"))
             [("Earnings Date", [Earnings.Seq [Earnings.Stamp 10; Earnings.Stamp 5]])]
             10%Z [Earnings.Stamp 5]); reflexivity.
  - apply (proj1 (proj2 (safe_earnings_date_total_first_candidate
                           (fun _ => Earnings.CalRaises) "NVDA")) OtherError).
    reflexivity.
Defined.

(** C5 as stated fails: of the candidates 10 and 5, in that order, the
    resolver returns 10, the earliest being 5. *)
Lemma safe_earnings_date_not_earliest :
  Earnings.safe_earnings_date
    (fun _ => Earnings.CalFrame
                [("Earnings Date", [Earnings.Seq [Earnings.Stamp 10; Earnings.Stamp 5]])])
    "NVDA" = Ok (Some (Earnings.Timestamp 10))
  /\ Earnings.spec_earliest 10 [5%Z] = 5%Z
  /\ Earnings.safe_earnings_date
       (fun _ => Earnings.CalFrame
                   [("Earnings Date", [Earnings.Seq [Earnings.Stamp 10; Earnings.Stamp 5]])])
       "NVDA" <> Ok (Some (Earnings.Timestamp (Earnings.spec_earliest 10 [5%Z]))).
Proof.
  split; [reflexivity |]. split; [reflexivity |].
  vm_compute. discriminate.
Qed.

(** ** The earnings alert *)

Lemma string_leb_trans (a b c : string) :
  String.leb a b = true -> String.leb b c = true -> String.leb a c = true.
Proof.
  unfold String.leb. revert b c.
  induction a as [| x a IH]; intros [| y b] [| z c]; simpl;
    try reflexivity; try discriminate.
  unfold Ascii.compare.
  destruct (N.compare_spec (N_of_ascii x) (N_of_ascii y)) as [Exy | Lxy | Gxy];
    destruct (N.compare_spec (N_of_ascii y) (N_of_ascii z)) as [Eyz | Lyz | Gyz];
    destruct (N.compare_spec (N_of_ascii x) (N_of_ascii z)) as [Exz | Lxz | Gxz];
    try reflexivity; try discriminate; try lia; intros H1 H2;
    try discriminate; try (eapply IH; eassumption).
Qed.

Lemma earn_leb_total (a b : Earnings.EarnRow) :
  Earnings.earn_leb a b = true \/ Earnings.earn_leb b a = true.
Proof.
  unfold Earnings.earn_leb.
  destruct (Earnings.earnings_date a) as [x |], (Earnings.earnings_date b) as [y |];
    auto; try apply String.leb_total.
  destruct (Z.ltb_spec x y), (Z.ltb_spec y x), (Z.eqb_spec x y), (Z.eqb_spec y x);
    simpl; auto; try lia; try apply String.leb_total.
Qed.

Lemma earn_leb_trans (a b c : Earnings.EarnRow) :
  Earnings.earn_leb a b = true -> Earnings.earn_leb b c = true ->
  Earnings.earn_leb a c = true.
Proof.
  unfold Earnings.earn_leb.
  destruct (Earnings.earnings_date a) as [x |], (Earnings.earnings_date b) as [y |],
           (Earnings.earnings_date c) as [z |];
    try reflexivity; try discriminate; try apply string_leb_trans.
  destruct (Z.ltb_spec x y), (Z.ltb_spec y z), (Z.ltb_spec x z),
           (Z.eqb_spec x y), (Z.eqb_spec y z), (Z.eqb_spec x z);
    simpl; try reflexivity; try discriminate; try lia; apply string_leb_trans.
Qed.

Lemma earn_df_nonempty (rows : list Earnings.EarnRow) :
  rows <> [] ->
  Earnings.earn_df rows =
  Ok (mkDataFrame ["ticker"; "earnings_date"; "days_until"]
        (stable_sort Earnings.earn_leb rows)).
Proof. destruct rows; [congruence | reflexivity]. Qed.

Lemma earn_df_empty : Earnings.earn_df [] = Raise (KeyError "earnings_date").
Proof. reflexivity. Qed.

Lemma filter_7d_after_dropna (l : list Earnings.EarnRow) :
  filter Earnings.in_next_7d (filter Earnings.notna l) = filter Earnings.in_next_7d l.
Proof.
  induction l as [| r t IH]; simpl; [reflexivity |].
  unfold Earnings.notna at 1, Earnings.in_next_7d at 2.
  destruct (Earnings.days_until r) as [d |] eqn:E; simpl; [| exact IH].
  unfold Earnings.in_next_7d at 1. rewrite E, IH. reflexivity.
Qed.

Lemma Permutation_filter_compat {A : Type} (f : A -> bool) (l l' : list A) :
  Permutation l l' -> Permutation (filter f l) (filter f l').
Proof.
  induction 1 as [| x l l' H IH | x y l | l l' l'' H1 IH1 H2 IH2]; simpl.
  - constructor.
  - destruct (f x); [now constructor | exact IH].
  - destruct (f x), (f y); try apply Permutation_refl. apply perm_swap.
  - eapply perm_trans; eassumption.
Qed.

Lemma in_next_7d_due (today : Z) (rec : string * option Z) :
  Earnings.in_next_7d (Earnings.record_row today rec) = true <->
  Earnings.due today (Earnings.record_row today rec).
Proof.
  unfold Earnings.in_next_7d, Earnings.due, Earnings.record_row. simpl.
  destruct (snd rec) as [d |]; simpl.
  - rewrite andb_true_iff, !Z.leb_le. split.
    + intros H. exists d. now split.
    + intros [d' [E H]]. injection E as <-. exact H.
  - split; [discriminate | intros [d [E _]]; discriminate].
Qed.

(** With at least one record the alert is computed: it shows the tickers of
    exactly the records whose date is present and within the next seven
    days, in the order of the table (date, then ticker), and is [none] when
    there is no such record. *)
Lemma earnings_alert_nonempty_records (today : Z) (recs : list (string * option Z)) :
  recs <> [] ->
  exists soon,
    Earnings.earnings_alert_of today recs = Ok (Earnings.earnings_banner soon)
    /\ Permutation soon
         (filter Earnings.in_next_7d (map (Earnings.record_row today) recs))
    /\ StronglySorted (le_of Earnings.earn_leb) soon
    /\ (forall r, In r soon <->
                  In r (map (Earnings.record_row today) recs) /\ Earnings.due today r)
    /\ Forall (fun r => Earnings.earnings_date r <> None) soon.
Proof.
  intros Hne.
  set (rows := map (Earnings.record_row today) recs).
  assert (Hrows : rows <> []) by (subst rows; destruct recs; [congruence | discriminate]).
  exists (filter Earnings.in_next_7d (stable_sort Earnings.earn_leb rows)).
  assert (Hin : forall r,
             In r (filter Earnings.in_next_7d (stable_sort Earnings.earn_leb rows)) <->
             In r rows /\ Earnings.due today r).
  { intros r. rewrite filter_In, stable_sort_In. split.
    - intros [Hr H7]. split; [exact Hr |].
      subst rows. apply in_map_iff in Hr as [rec [<- _]]. now apply in_next_7d_due.
    - intros [Hr Hd]. split; [exact Hr |].
      subst rows. apply in_map_iff in Hr as [rec [<- _]]. now apply in_next_7d_due. }
  split; [| split; [| split; [| split]]].
  - unfold Earnings.earnings_alert_of, Earnings.earnings_alert_of_rows.
    fold rows. rewrite (earn_df_nonempty rows Hrows). cbn [bind].
    unfold Earnings.soon_earn_7d. cbn [get_label columns Py.mem existsb records].
    replace (String.eqb "days_until" "ticker") with false by reflexivity.
    replace (String.eqb "days_until" "earnings_date") with false by reflexivity.
    replace (String.eqb "days_until" "days_until") with true by reflexivity.
    cbn [orb bind]. now rewrite filter_7d_after_dropna.
  - apply Permutation_filter_compat, stable_sort_perm.
  - apply StronglySorted_filter, stable_sort_strongly.
    + apply earn_leb_total.
    + apply earn_leb_trans.
  - exact Hin.
  - apply Forall_forall. intros r Hr. apply Hin in Hr as [_ [d [E _]]]. congruence.
Qed.

Lemma earnings_banner_upcoming_iff (soon : list Earnings.EarnRow) :
  (exists tickers, Earnings.earnings_banner soon = Earnings.upcoming tickers) <-> soon <> [].
Proof.
  destruct soon as [| r t]; simpl; split.
  - intros [tk H]. discriminate.
  - congruence.
  - discriminate.
  - intros _. eexists. reflexivity.
Qed.

(** C4 at the empty set of records (the watchlist after [Clear]): no record
    is due, so the alert should be [none]; the table built from no rows has
    no [earnings_date] column and sorting it raises. *)
Theorem earnings_alert_no_records_raises (today : Z) :
  Earnings.earnings_alert_of today [] = Raise (KeyError "earnings_date").
Proof. reflexivity. Qed.

(** ** Exposure *)

(** The tag lists a sector can be given. *)
Lemma tags_of_cases (sector : option string) :
  In (Exposure.tags_of sector) (["unknown"] :: map snd Exposure.sector_to_tags).
Proof.
  destruct sector as [s |]; simpl; [| now left].
  destruct (String.eqb s ""); [now left |].
  repeat match goal with
         | |- context [String.eqb s ?k] => destruct (String.eqb s k); [tauto |]
         end.
  now left.
Qed.

(** Joining a tag list with [", "], splitting it at the commas and
    stripping the pieces gives the list back. *)
Lemma row_tags_roundtrip (sector : option string) :
  map Py.strip (Py.split "," (Py.join ", " (Exposure.tags_of sector)))
  = Exposure.tags_of sector.
Proof.
  assert (H : Forall (fun l => map Py.strip (Py.split "," (Py.join ", " l)) = l)
                     (["unknown"] :: map snd Exposure.sector_to_tags))
    by (repeat constructor).
  rewrite Forall_forall in H. apply H, tags_of_cases.
Qed.

Lemma occurrences_app (t : string) (l1 l2 : list string) :
  Exposure.occurrences t (l1 ++ l2) = Exposure.occurrences t l1 + Exposure.occurrences t l2.
Proof. induction l1 as [| x r IH]; simpl; [reflexivity | rewrite IH; lia]. Qed.

(** No tag is listed twice for a sector. *)
Lemma tags_of_occurrences (t : string) (sector : option string) :
  Exposure.occurrences t (Exposure.tags_of sector) <= 1.
Proof.
  pose proof (tags_of_cases sector) as H. simpl in H.
  repeat (destruct H as [<- | H];
          [cbn [Exposure.occurrences];
           repeat match goal with
                  | |- context [String.eqb ?a t] =>
                      destruct (String.eqb_spec a t);
                      [subst t; cbn [Exposure.occurrences] | ]
                  end; vm_compute; lia |]).
  destruct H.
Qed.

Lemma tags_of_nonempty (sector : option string) : Exposure.tags_of sector <> [].
Proof.
  pose proof (tags_of_cases sector) as H. simpl in H.
  repeat (destruct H as [<- | H]; [discriminate |]). destruct H.
Qed.

Lemma flat_map_row_tags (sector_of : string -> option string) (watchlist : list string) :
  flat_map Exposure.row_tags (Exposure.ex_rows sector_of watchlist)
  = Exposure.watchlist_tags sector_of watchlist.
Proof.
  unfold Exposure.ex_rows, Exposure.watchlist_tags.
  induction watchlist as [| tic rest IH]; [reflexivity |].
  cbn [map flat_map]. rewrite IH. f_equal.
  unfold Exposure.row_tags. cbn [Exposure.tags]. apply row_tags_roundtrip.
Qed.

Lemma all_tags_nonempty (sector_of : string -> option string) (watchlist : list string) :
  watchlist <> [] ->
  Exposure.all_tags (Exposure.ex_df sector_of watchlist)
  = Ok (Exposure.watchlist_tags sector_of watchlist).
Proof.
  intros Hne. unfold Exposure.all_tags, Exposure.ex_df.
  rewrite <- flat_map_row_tags.
  destruct watchlist as [| tic rest]; [congruence | reflexivity].
Qed.

Lemma all_tags_empty (sector_of : string -> option string) :
  Exposure.all_tags (Exposure.ex_df sector_of []) = Raise (KeyError "tags").
Proof. reflexivity. Qed.

Lemma watchlist_tags_occurrences (sector_of : string -> option string)
      (watchlist : list string) (t : string) :
  Exposure.occurrences t (Exposure.watchlist_tags sector_of watchlist) <= List.length watchlist.
Proof.
  unfold Exposure.watchlist_tags.
  induction watchlist as [| tic rest IH]; simpl; [lia |].
  rewrite occurrences_app. pose proof (tags_of_occurrences t (sector_of tic)). lia.
Qed.

Lemma watchlist_tags_nonempty (sector_of : string -> option string) (watchlist : list string) :
  watchlist <> [] -> Exposure.watchlist_tags sector_of watchlist <> [].
Proof.
  destruct watchlist as [| tic rest]; [congruence |].
  intros _. unfold Exposure.watchlist_tags. simpl.
  pose proof (tags_of_nonempty (sector_of tic)) as H.
  destruct (Exposure.tags_of (sector_of tic)); [congruence | discriminate].
Qed.

(** *** The tally *)

Lemma count_of_count_into (t k : string) (acc : list (string * nat)) :
  Exposure.count_of k (Exposure.count_into t acc)
  = Exposure.count_of k acc + (if String.eqb t k then 1 else 0).
Proof.
  induction acc as [| [x c] rest IH]; simpl.
  - destruct (String.eqb t k); reflexivity.
  - destruct (String.eqb_spec x t) as [-> | Hxt]; simpl.
    + destruct (String.eqb t k); lia.
    + destruct (String.eqb_spec x k) as [-> | Hxk].
      * destruct (String.eqb_spec t k); [congruence | lia].
      * exact IH.
Qed.

Lemma count_of_fold (k : string) (l : list string) (acc : list (string * nat)) :
  Exposure.count_of k (fold_left (fun a t => Exposure.count_into t a) l acc)
  = Exposure.count_of k acc + Exposure.occurrences k l.
Proof.
  revert acc. induction l as [| t r IH]; intros acc; simpl; [lia |].
  rewrite IH, count_of_count_into. lia.
Qed.

Lemma count_into_keys (t k : string) (acc : list (string * nat)) :
  In k (map fst (Exposure.count_into t acc)) <-> k = t \/ In k (map fst acc).
Proof.
  induction acc as [| [x c] rest IH]; simpl.
  - intuition congruence.
  - destruct (String.eqb_spec x t) as [-> | Hxt]; simpl; [intuition congruence |].
    rewrite IH. tauto.
Qed.

Lemma count_into_NoDup (t : string) (acc : list (string * nat)) :
  NoDup (map fst acc) -> NoDup (map fst (Exposure.count_into t acc)).
Proof.
  induction acc as [| [x c] rest IH]; simpl; intros H.
  - repeat constructor. intros [].
  - inversion H as [| ? ? Hnotin Hnd]; subst.
    destruct (String.eqb_spec x t) as [-> | Hxt]; simpl.
    + now constructor.
    + constructor; [| now apply IH].
      rewrite count_into_keys. intros [-> | Hin]; [congruence | contradiction].
Qed.

Lemma count_into_positive (t : string) (acc : list (string * nat)) :
  Forall (fun p => 1 <= snd p) acc ->
  Forall (fun p => 1 <= snd p) (Exposure.count_into t acc).
Proof.
  induction acc as [| [x c] rest IH]; simpl; intros H.
  - repeat constructor.
  - inversion H; subst. destruct (String.eqb x t); constructor; simpl in *; auto; lia.
Qed.

Lemma count_into_not_nil (t : string) (acc : list (string * nat)) :
  Exposure.count_into t acc <> [].
Proof. destruct acc as [| [x c] rest]; simpl; [| destruct (String.eqb x t)]; discriminate. Qed.

Lemma fold_count_invariant (l : list string) (acc : list (string * nat)) :
  NoDup (map fst acc) -> Forall (fun p => 1 <= snd p) acc ->
  NoDup (map fst (fold_left (fun a t => Exposure.count_into t a) l acc))
  /\ Forall (fun p => 1 <= snd p) (fold_left (fun a t => Exposure.count_into t a) l acc).
Proof.
  revert acc. induction l as [| t r IH]; intros acc Hn Hp; simpl; [now split |].
  apply IH; [now apply count_into_NoDup | now apply count_into_positive].
Qed.

Lemma fold_count_not_nil (l : list string) (acc : list (string * nat)) :
  acc <> [] -> fold_left (fun a t => Exposure.count_into t a) l acc <> [].
Proof.
  revert acc. induction l as [| t r IH]; intros acc H; simpl; [exact H |].
  apply IH, count_into_not_nil.
Qed.

Lemma count_of_In (k : string) (c : nat) (acc : list (string * nat)) :
  NoDup (map fst acc) -> In (k, c) acc -> Exposure.count_of k acc = c.
Proof.
  induction acc as [| [x d] rest IH]; simpl; intros Hn H; [destruct H |].
  inversion Hn as [| ? ? Hnotin Hnd]; subst. destruct H as [H | H].
  - injection H as -> ->. now rewrite String.eqb_refl.
  - destruct (String.eqb_spec x k) as [-> | Hxk]; [| now apply IH].
    exfalso. apply Hnotin. change k with (fst (k, c)). now apply in_map.
Qed.

(** Each entry of the tally is a tag with the number of times it occurs. *)
Lemma tally_In (l : list string) (k : string) (c : nat) :
  In (k, c) (Exposure.tally l) -> c = Exposure.occurrences k l /\ 1 <= c.
Proof.
  intros H. unfold Exposure.tally in *.
  destruct (fold_count_invariant l [] (NoDup_nil _) (Forall_nil _)) as [Hn Hp].
  split.
  - rewrite <- (count_of_In k c _ Hn H), count_of_fold. reflexivity.
  - rewrite Forall_forall in Hp. exact (Hp (k, c) H).
Qed.

Lemma tally_not_nil (l : list string) : l <> [] -> Exposure.tally l <> [].
Proof.
  destruct l as [| t r]; [congruence |]. intros _.
  unfold Exposure.tally. simpl. apply fold_count_not_nil. discriminate.
Qed.

Lemma count_geb_total (a b : string * nat) :
  Exposure.count_geb a b = true \/ Exposure.count_geb b a = true.
Proof. unfold Exposure.count_geb. rewrite !Nat.leb_le. lia. Qed.

Lemma count_geb_trans (a b c : string * nat) :
  Exposure.count_geb a b = true -> Exposure.count_geb b c = true ->
  Exposure.count_geb a c = true.
Proof. unfold Exposure.count_geb. rewrite !Nat.leb_le. lia. Qed.

(** With at least one ticker the summary is computed: the dominant tag heads
    the counts, its count is the number of tickers that carry it, no other
    count is higher, and the share is that count over the number of
    tickers. *)
Lemma compute_nonempty (watchlist : list string) (sector_of : string -> option string) :
  watchlist <> [] ->
  exists tag c rest,
    Exposure.compute watchlist sector_of
    = Ok (Exposure.mkSummary ((tag, c) :: rest) tag
            (Qmake (Z.of_nat c) (Pos.of_nat (Nat.max (List.length watchlist) 1))))
    /\ c = Exposure.occurrences tag (Exposure.watchlist_tags sector_of watchlist)
    /\ 1 <= c <= List.length watchlist
    /\ (forall t' c', In (t', c') rest -> c' <= c).
Proof.
  intros Hne. unfold Exposure.compute.
  rewrite (all_tags_nonempty sector_of watchlist Hne). cbn [bind].
  unfold Exposure.value_counts.
  set (tags := Exposure.watchlist_tags sector_of watchlist).
  pose proof (stable_sort_strongly Exposure.count_geb count_geb_total count_geb_trans
                (Exposure.tally tags)) as Hs.
  pose proof (stable_sort_In Exposure.count_geb (Exposure.tally tags)) as Hin.
  pose proof (stable_sort_nil_iff Exposure.count_geb (Exposure.tally tags)) as Hnil.
  destruct (stable_sort Exposure.count_geb (Exposure.tally tags)) as [| [tag c] rest].
  - exfalso. apply (tally_not_nil tags); [| now apply Hnil].
    now apply watchlist_tags_nonempty.
  - exists tag, c, rest.
    destruct (tally_In tags tag c (proj1 (Hin (tag, c)) (or_introl eq_refl))) as [Hc H1].
    assert (Hlen : c <= List.length watchlist)
      by (rewrite Hc; apply watchlist_tags_occurrences).
    split; [| split; [exact Hc | split; [lia |]]].
    + unfold Exposure.true_div.
      destruct (Nat.max (List.length watchlist) 1) eqn:E; [lia | reflexivity].
    + intros t' c' H'.
      pose proof (StronglySorted_head_least _ _ _ Hs (t', c') H') as Hle.
      unfold le_of, Exposure.count_geb in Hle. simpl in Hle. now apply Nat.leb_le.
Qed.

(** The share of a non-empty watchlist lies in (0, 1]. *)
Lemma compute_nonempty_share (watchlist : list string) (sector_of : string -> option string) :
  watchlist <> [] ->
  exists s, Exposure.compute watchlist sector_of = Ok s
            /\ (0 < Exposure.dominant_share s)%Q /\ (Exposure.dominant_share s <= 1)%Q.
Proof.
  intros Hne.
  destruct (compute_nonempty watchlist sector_of Hne) as (tag & c & rest & E & _ & Hc & _).
  eexists. split; [exact E |]. cbn [Exposure.dominant_share].
  assert (Hm : Nat.max (List.length watchlist) 1 = List.length watchlist) by lia.
  rewrite Hm. destruct (List.length watchlist) as [| n] eqn:El; [lia |].
  unfold Qlt, Qle. cbn [Qnum Qden].
  rewrite <- Pos.of_nat_succ, Zpos_P_of_succ_nat. lia.
Qed.

(** C1 at the empty watchlist (the watchlist after [Clear]): the share
    should be 0 there; the exposure table built from no rows has no [tags]
    column, and reading it raises before any share is computed. *)
Theorem compute_empty_watchlist_raises (sector_of : string -> option string) :
  Exposure.compute [] sector_of = Raise (KeyError "tags").
Proof. reflexivity. Qed.

(** C2 on the code: with an empty watchlist the evaluation does not
    complete, whatever the calendar; with the script's calendar it stops at
    the sort of the earnings table, whose [earnings_date] column does not
    exist. *)
Theorem evaluate_empty_watchlist_raises
        (today now : Z) (events : list Macro.MacroEvent)
        (yf_calendar : string -> Earnings.calendar)
        (yf_info : string -> result (option string)) :
  (exists e, evaluate today now events yf_calendar yf_info [] = Raise e)
  /\ evaluate today now (Macro.macro_events today) yf_calendar yf_info []
     = Raise (KeyError "earnings_date").
Proof.
  split; [| reflexivity].
  destruct events as [| ev evs].
  - exists (KeyError "date"). reflexivity.
  - exists (KeyError "earnings_date"). reflexivity.
Qed.

(** C8: for the watchlist AAPL, MSFT with both tickers in Technology, the
    counts are rate-sensitive 2 and growth 2, the share is 1, and of the two
    tied tags the dominant one is rate-sensitive, the first met. *)
Theorem exposure_two_technology_tickers (sector_of : string -> option string) :
  sector_of "AAPL" = Some "Technology" ->
  sector_of "MSFT" = Some "Technology" ->
  exists s, Exposure.compute ["AAPL"; "MSFT"] sector_of = Ok s
    /\ Exposure.tag_counts s = [("rate-sensitive", 2); ("growth", 2)]
    /\ Exposure.count_of "rate-sensitive" (Exposure.tag_counts s) = 2
    /\ Exposure.count_of "growth" (Exposure.tag_counts s) = 2
    /\ (Exposure.dominant_share s == 1)%Q
    /\ Exposure.dominant_tag s = "rate-sensitive".
Proof.
  intros H1 H2.
  exists (Exposure.mkSummary [("rate-sensitive", 2); ("growth", 2)] "rate-sensitive"
            (Qmake 2 2)).
  split.
  - unfold Exposure.compute, Exposure.ex_df, Exposure.ex_rows.
    cbn [map]. rewrite H1, H2. reflexivity.
  - repeat split; reflexivity.
Qed.

Lemma exposure_two_technology_tickers_witness :
  exists s, Exposure.compute ["AAPL"; "MSFT"] (fun _ => Some "Technology") = Ok s
    /\ Exposure.tag_counts s = [("rate-sensitive", 2); ("growth", 2)]
    /\ Exposure.count_of "rate-sensitive" (Exposure.tag_counts s) = 2
    /\ Exposure.count_of "growth" (Exposure.tag_counts s) = 2
    /\ (Exposure.dominant_share s == 1)%Q
    /\ Exposure.dominant_tag s = "rate-sensitive".
Proof.
  apply (exposure_two_technology_tickers (fun _ => Some "Technology")); reflexivity.
Defined.

(* ================================================================= *)
(** * Further properties of the script *)

(** ** The watchlist *)

Lemma reachable_nonblank (w : list string) :
  Watchlist.reachable w -> Forall (fun t => t <> "") w.
Proof.
  induction 1 as [| text a c w Hr IH].
  - repeat constructor; discriminate.
  - unfold Watchlist.sidebar.
    destruct c; [constructor |].
    destruct a; simpl; [| exact IH].
    destruct (String.eqb_spec (Watchlist.new_ticker text) "") as [E | E]; simpl; [exact IH |].
    destruct (negb (Py.mem (Watchlist.new_ticker text) w)); [| exact IH].
    apply Forall_app. split; [exact IH | repeat constructor; exact E].
Qed.

Lemma is_ascii_upper_char (c : ascii) :
  Py.is_ascii_char c = true -> Py.is_ascii_char (Py.upper_char c) = true.
Proof. destruct c as [[] [] [] [] [] [] [] []]; intros H; try reflexivity; discriminate H. Qed.

Lemma is_ascii_upper (s : string) : Py.is_ascii s = true -> Py.is_ascii (Py.upper s) = true.
Proof.
  induction s as [| c r IH]; simpl; [reflexivity |].
  rewrite !andb_true_iff. intros [Hc Hr]. split; [now apply is_ascii_upper_char | now apply IH].
Qed.

Lemma is_ascii_lstrip (s : string) : Py.is_ascii s = true -> Py.is_ascii (Py.lstrip s) = true.
Proof.
  induction s as [| c r IH]; simpl; [reflexivity |].
  destruct (Py.is_space c); [| exact (fun H => H)].
  rewrite andb_true_iff. intros [_ Hr]. now apply IH.
Qed.

Lemma is_ascii_rstrip (s : string) : Py.is_ascii s = true -> Py.is_ascii (Py.rstrip s) = true.
Proof.
  induction s as [| c r IH]; simpl; [reflexivity |].
  rewrite andb_true_iff. intros [Hc Hr]. specialize (IH Hr).
  destruct (Py.rstrip r) as [| d r'].
  - destruct (Py.is_space c); simpl; [reflexivity | now rewrite Hc].
  - change (Py.is_ascii (String c (String d r')))
      with (Py.is_ascii_char c && Py.is_ascii (String d r')).
    now rewrite Hc, IH.
Qed.

Lemma is_ascii_new_ticker (text : string) :
  Py.is_ascii text = true -> Py.is_ascii (Watchlist.new_ticker text) = true.
Proof.
  intros H. unfold Watchlist.new_ticker, Py.strip.
  now apply is_ascii_upper, is_ascii_rstrip, is_ascii_lstrip.
Qed.

Lemma reachable_ascii_reachable (w : list string) :
  Watchlist.reachable_ascii w -> Watchlist.reachable w.
Proof. induction 1; constructor; assumption. Qed.

Lemma reachable_ascii_is_ascii (w : list string) :
  Watchlist.reachable_ascii w -> Forall (fun t => Py.is_ascii t = true) w.
Proof.
  induction 1 as [| text a c w Ht Hr IH].
  - repeat constructor.
  - unfold Watchlist.sidebar.
    destruct c; [constructor |].
    destruct (a && negb (String.eqb (Watchlist.new_ticker text) "")); [| exact IH].
    destruct (negb (Py.mem (Watchlist.new_ticker text) w)); [| exact IH].
    apply Forall_app. split; [exact IH |].
    constructor; [now apply is_ascii_new_ticker | constructor].
Qed.

(** X1: in a session in which only ASCII text is typed, whatever is typed
    and clicked, the watchlist never holds a ticker twice, and every ticker
    in it is non-empty ASCII text with no letter a-z and no leading or
    trailing whitespace. *)
Theorem reachable_watchlist_invariant (w : list string) :
  Watchlist.reachable_ascii w ->
  NoDup w
  /\ Forall (fun t => t <> "" /\ Py.is_ascii t = true
                     /\ Py.no_lower t = true /\ Py.trimmed t = true) w.
Proof.
  intros Ha. pose proof (reachable_ascii_reachable w Ha) as Hr.
  split; [now apply reachable_NoDup |].
  pose proof (reachable_normalized w Hr) as Hn.
  pose proof (reachable_nonblank w Hr) as Hb.
  pose proof (reachable_ascii_is_ascii w Ha) as Hi.
  rewrite Forall_forall in *. intros t Ht.
  split; [now apply Hb |]. split; [now apply Hi |].
  rewrite <- (Hn t Ht). unfold Watchlist.new_ticker.
  split; [apply no_lower_upper | rewrite trimmed_upper; apply trimmed_strip].
Qed.

Lemma reachable_watchlist_invariant_witness :
  Watchlist.reachable_ascii (Watchlist.add " nvda " Watchlist.initial)
  /\ NoDup (Watchlist.add " nvda " Watchlist.initial)
  /\ Forall (fun t => t <> "" /\ Py.is_ascii t = true
                     /\ Py.no_lower t = true /\ Py.trimmed t = true)
            (Watchlist.add " nvda " Watchlist.initial).
Proof.
  assert (Hr : Watchlist.reachable_ascii (Watchlist.add " nvda " Watchlist.initial))
    by (apply Watchlist.reach_ascii_step; [reflexivity | constructor]).
  split; [exact Hr |].
  exact (reachable_watchlist_invariant _ Hr).
Defined.

(** X2: [add] keeps the tickers already there, in their order, and appends
    at most one; afterwards the watchlist holds what it held, and the
    normalized input when that is not empty. *)
Theorem add_keeps_order_and_members (text : string) (w : list string) :
  (exists suffix, Watchlist.add text w = w ++ suffix /\ List.length suffix <= 1)
  /\ (forall t, In t (Watchlist.add text w) <->
                In t w \/ (t = Watchlist.new_ticker text /\ t <> "")).
Proof.
  rewrite add_cases.
  destruct (String.eqb_spec (Watchlist.new_ticker text) "") as [E | E]; simpl.
  - split; [exists []; rewrite app_nil_r; auto |].
    intros t. split; [auto | intros [H | [-> H]]; [exact H | contradiction]].
  - destruct (Py.mem (Watchlist.new_ticker text) w) eqn:M.
    + split; [exists []; rewrite app_nil_r; auto |].
      apply mem_In in M.
      intros t. split; [auto | intros [H | [-> _]]; assumption].
    + split; [exists [Watchlist.new_ticker text]; auto |].
      intros t. rewrite in_app_iff. simpl. split.
      * intros [H | [<- | []]]; [now left | right; now split].
      * intros [H | [-> _]]; [now left | right; now left].
Qed.

(** X3: two inputs that differ only in case and surrounding whitespace are
    the same ticker: after adding one, adding the other changes nothing. *)
Theorem add_same_normal_form (text1 text2 : string) (w : list string) :
  Watchlist.new_ticker text1 = Watchlist.new_ticker text2 ->
  Watchlist.add text2 (Watchlist.add text1 w) = Watchlist.add text1 w.
Proof.
  intros E.
  rewrite (add_cases text2 (Watchlist.add text1 w)), <- E,
    <- (add_cases text1 (Watchlist.add text1 w)).
  apply add_twice.
Qed.

Lemma add_same_normal_form_witness :
  Watchlist.new_ticker "nvda" = Watchlist.new_ticker "  NVDA "
  /\ Watchlist.add "  NVDA " (Watchlist.add "nvda" Watchlist.initial)
     = Watchlist.add "nvda" Watchlist.initial.
Proof.
  assert (E : Watchlist.new_ticker "nvda" = Watchlist.new_ticker "  NVDA ") by reflexivity.
  split; [exact E |].
  exact (add_same_normal_form "nvda" "  NVDA " Watchlist.initial E).
Defined.

(** ** The macro calendar *)

Lemma StronglySorted_app_before {R : Type} (le : R -> R -> Prop) (l1 l2 : list R) (x : R) :
  StronglySorted le (l1 ++ x :: l2) -> forall y, In y l1 -> le y x.
Proof.
  induction l1 as [| h t IH]; simpl; intros H y Hy; [destruct Hy |].
  inversion H as [| ? ? Hs Hall]; subst.
  destruct Hy as [<- | Hy]; [| now apply IH].
  rewrite Forall_forall in Hall. apply Hall, in_or_app. right. now left.
Qed.

Lemma filter_head_split {R : Type} (f : R -> bool) (l : list R) (x : R) (r : list R) :
  filter f l = x :: r ->
  exists l1 l2, l = l1 ++ x :: l2 /\ Forall (fun y => f y = false) l1 /\ f x = true.
Proof.
  induction l as [| h t IH]; simpl; [discriminate |].
  destruct (f h) eqn:E.
  - intros H. injection H as <- _. exists [], t. repeat split; [constructor | exact E].
  - intros H. destruct (IH H) as (l1 & l2 & -> & Hall & Hx).
    exists (h :: l1), l2. repeat split; [now constructor | exact Hx].
Qed.

Lemma filter_head_of_split {R : Type} (f : R -> bool) (l1 l2 : list R) (x : R) :
  Forall (fun y => f y = false) l1 -> f x = true ->
  filter f (l1 ++ x :: l2) = x :: filter f l2.
Proof.
  induction 1 as [| h t Hh Ht IH]; simpl; intros Hx.
  - now rewrite Hx.
  - rewrite Hh. now apply IH.
Qed.

Lemma macro_alert_of_nonempty (now : Z) (events : list Macro.MacroEvent) :
  events <> [] ->
  Macro.macro_alert_of now events =
  Ok (match filter (Macro.within now (Qmake 48 1)) (stable_sort Macro.date_leb events) with
      | top :: _ => Macro.imminent top
      | [] => Macro.clear
      end).
Proof.
  intros Hne. unfold Macro.macro_alert_of.
  rewrite (macro_df_nonempty events Hne). reflexivity.
Qed.

Lemma macro_alert_imminent_inv (now : Z) (events : list Macro.MacroEvent)
      (top : Macro.MacroEvent) :
  Macro.macro_alert_of now events = Ok (Macro.imminent top) ->
  events <> []
  /\ exists rest,
      filter (Macro.within now (Qmake 48 1)) (stable_sort Macro.date_leb events)
      = top :: rest.
Proof.
  intros H. destruct events as [| e es]; [discriminate |].
  split; [discriminate |].
  rewrite macro_alert_of_nonempty in H by discriminate.
  destruct (filter (Macro.within now (Qmake 48 1)) (stable_sort Macro.date_leb (e :: es)))
    as [| t rest]; [discriminate |].
  injection H as ->. now exists rest.
Qed.

Lemma next_event_of_nonempty (events : list Macro.MacroEvent) :
  events <> [] ->
  Memo.next_event_of events =
  match stable_sort Macro.date_leb (stable_sort Macro.date_leb events) with
  | top :: _ => Ok (Macro.event top)
  | [] => Raise IndexError
  end.
Proof.
  intros Hne. unfold Memo.next_event_of.
  rewrite (macro_df_nonempty events Hne). cbn [bind].
  unfold Memo.next_event, sort_values. cbn [get_labels get_label columns records].
  replace (Py.mem "date" ["date"; "event"; "why"]) with true by reflexivity.
  cbn [bind]. unfold Memo.iloc0. cbn [records].
  now destruct (stable_sort Macro.date_leb (stable_sort Macro.date_leb events)).
Qed.

Lemma next_event_least (events : list Macro.MacroEvent) :
  events <> [] ->
  exists top, In top events
    /\ Memo.next_event_of events = Ok (Macro.event top)
    /\ forall e, In e events -> (Macro.date top <= Macro.date e)%Z.
Proof.
  intros Hne. rewrite (next_event_of_nonempty events Hne).
  pose proof (stable_sort_strongly Macro.date_leb date_leb_total date_leb_trans
                (stable_sort Macro.date_leb events)) as Hs.
  assert (Hin : forall e, In e (stable_sort Macro.date_leb (stable_sort Macro.date_leb events))
                          <-> In e events)
    by (intros e; now rewrite !stable_sort_In).
  destruct (stable_sort Macro.date_leb (stable_sort Macro.date_leb events)) as [| top rest].
  - destruct events as [| e es]; [congruence |].
    destruct (proj2 (Hin e) (or_introl eq_refl)).
  - exists top. split; [apply Hin; now left |]. split; [reflexivity |].
    intros e He. apply Hin in He. destruct He as [<- | He]; [lia |].
    pose proof (StronglySorted_head_least _ _ _ Hs e He) as Hle.
    unfold le_of, Macro.date_leb in Hle. now apply Z.leb_le.
Qed.

(** X4: for a calendar with at least one event, the next event of the
    interpretation and the memo is the name of an event of the calendar
    that no event precedes; the current time plays no part in it. *)
Theorem next_event_has_least_date (events : list Macro.MacroEvent) :
  events <> [] ->
  exists top, In top events
    /\ Memo.next_event_of events = Ok (Macro.event top)
    /\ forall e, In e events -> (Macro.date top <= Macro.date e)%Z.
Proof. exact (next_event_least events). Qed.

Lemma next_event_has_least_date_witness :
  Macro.macro_events 0 <> []
  /\ exists top, In top (Macro.macro_events 0)
    /\ Memo.next_event_of (Macro.macro_events 0) = Ok (Macro.event top)
    /\ forall e, In e (Macro.macro_events 0) -> (Macro.date top <= Macro.date e)%Z.
Proof.
  assert (H : Macro.macro_events 0 <> []) by (simpl; discriminate).
  split; [exact H |].
  exact (next_event_has_least_date (Macro.macro_events 0) H).
Defined.

(** X5: once an event is shown as imminent it stays the event shown at
    every later time up to the midnight that starts its day. *)
Theorem macro_alert_persists (now now' : Z) (events : list Macro.MacroEvent)
        (top : Macro.MacroEvent) :
  Macro.macro_alert_of now events = Ok (Macro.imminent top) ->
  (now <= now' <= midnight (Macro.date top))%Z ->
  Macro.macro_alert_of now' events = Ok (Macro.imminent top).
Proof.
  intros H Hnow.
  destruct (macro_alert_imminent_inv now events top H) as [Hne [rest Hf]].
  rewrite (macro_alert_of_nonempty now' events Hne).
  destruct (filter_head_split _ _ _ _ Hf) as (l1 & l2 & El & Hl1 & Htop).
  pose proof (stable_sort_strongly Macro.date_leb date_leb_total date_leb_trans events) as Hs.
  rewrite El in *.
  apply within_48h_iff in Htop.
  rewrite filter_head_of_split; [reflexivity | |].
  - apply Forall_forall. intros y Hy.
    pose proof (StronglySorted_app_before _ _ _ _ Hs y Hy) as Hle.
    unfold le_of, Macro.date_leb in Hle. apply Z.leb_le in Hle.
    rewrite Forall_forall in Hl1. specialize (Hl1 y Hy).
    apply within_false. intros Hw'.
    assert (Hw : Macro.in_window now y).
    { unfold Macro.in_window, midnight, US_PER_DAY, US_PER_HOUR in *. lia. }
    apply within_48h_iff in Hw. congruence.
  - apply within_48h_iff.
    unfold Macro.in_window, midnight, US_PER_DAY, US_PER_HOUR in *. lia.
Qed.

Lemma macro_alert_persists_witness :
  Macro.macro_alert_of 0 (Macro.macro_events 0)
  = Ok (Macro.imminent (Macro.mkEvent 1 "CPI (Inflation) release"
                          "Can move rates & growth stocks; affects valuations."))
  /\ (0 <= 3600000000 <= midnight 1)%Z
  /\ Macro.macro_alert_of 3600000000 (Macro.macro_events 0)
     = Ok (Macro.imminent (Macro.mkEvent 1 "CPI (Inflation) release"
                             "Can move rates & growth stocks; affects valuations.")).
Proof.
  assert (H : Macro.macro_alert_of 0 (Macro.macro_events 0)
              = Ok (Macro.imminent (Macro.mkEvent 1 "CPI (Inflation) release"
                       "Can move rates & growth stocks; affects valuations.")))
    by reflexivity.
  assert (Hn : (0 <= 3600000000 <= midnight 1)%Z)
    by (vm_compute; split; discriminate).
  split; [exact H |]. split; [exact Hn |].
  exact (macro_alert_persists 0 3600000000 (Macro.macro_events 0) _ H Hn).
Defined.

Lemma imminent_top_least (now : Z) (events : list Macro.MacroEvent) (top : Macro.MacroEvent) :
  Macro.macro_alert_of now events = Ok (Macro.imminent top) ->
  In top events /\ Macro.in_window now top
  /\ forall e, In e events -> Macro.in_window now e -> (Macro.date top <= Macro.date e)%Z.
Proof.
  intros H. destruct (macro_alert_imminent_inv now events top H) as [_ [rest Hf]].
  pose proof (soon_macro_sorted now events) as Hs.
  pose proof (soon_macro_In now events) as Hin.
  rewrite Hf in *.
  destruct (proj1 (Hin top) (or_introl eq_refl)) as [Ht Hw].
  split; [exact Ht |]. split; [exact Hw |].
  intros e He Hwe.
  destruct (proj2 (Hin e) (conj He Hwe)) as [<- | Hr]; [lia |].
  pose proof (StronglySorted_head_least _ _ _ Hs e Hr) as Hle.
  unfold le_of, Macro.date_leb in Hle. now apply Z.leb_le.
Qed.

(** X6: when no event of the calendar lies before [now], the event the
    alert shows as imminent and the next event named in the memo fall on
    the same date. *)
Theorem imminent_event_dated_as_next_event (now : Z) (events : list Macro.MacroEvent)
        (top : Macro.MacroEvent) :
  Macro.macro_alert_of now events = Ok (Macro.imminent top) ->
  (forall e, In e events -> (now <= midnight (Macro.date e))%Z) ->
  exists e, In e events /\ Macro.date e = Macro.date top
            /\ Memo.next_event_of events = Ok (Macro.event e).
Proof.
  intros H Hfuture.
  destruct (imminent_top_least now events top H) as (Ht & Hw & Hmin).
  assert (Hne : events <> []) by (destruct events; [destruct Ht | discriminate]).
  destruct (next_event_least events Hne) as (e & He & Hnext & Hleast).
  exists e. split; [exact He |]. split; [| exact Hnext].
  pose proof (Hleast top Ht) as H1.
  assert (Hwe : Macro.in_window now e).
  { pose proof (Hfuture e He).
    unfold Macro.in_window, midnight, US_PER_DAY, US_PER_HOUR in *. lia. }
  pose proof (Hmin e He Hwe). lia.
Qed.

Lemma imminent_event_dated_as_next_event_witness :
  Macro.macro_alert_of 0 (Macro.macro_events 0)
  = Ok (Macro.imminent (Macro.mkEvent 1 "CPI (Inflation) release"
                          "Can move rates & growth stocks; affects valuations."))
  /\ (forall e, In e (Macro.macro_events 0) -> (0 <= midnight (Macro.date e))%Z)
  /\ exists e, In e (Macro.macro_events 0) /\ Macro.date e = 1%Z
               /\ Memo.next_event_of (Macro.macro_events 0) = Ok (Macro.event e).
Proof.
  assert (H : Macro.macro_alert_of 0 (Macro.macro_events 0)
              = Ok (Macro.imminent (Macro.mkEvent 1 "CPI (Inflation) release"
                       "Can move rates & growth stocks; affects valuations.")))
    by reflexivity.
  assert (Hf : forall e, In e (Macro.macro_events 0) -> (0 <= midnight (Macro.date e))%Z).
  { intros e [<- | [<- | [<- | []]]]; vm_compute; discriminate. }
  split; [exact H |]. split; [exact Hf |].
  exact (imminent_event_dated_as_next_event 0 (Macro.macro_events 0) _ H Hf).
Defined.

(** ** The earnings resolver and the earnings table *)

(** X7: the resolver returns a timestamp exactly when the upstream
    calendar is a non-empty frame with one row labelled [Earnings Date]
    whose first cell is that timestamp, alone or as the first of a list.
    With no such row, with several, with a missing or unreadable cell, it
    returns no timestamp. *)
Theorem safe_earnings_date_timestamp_iff
        (yf_calendar : string -> Earnings.calendar) (ticker : string) (ts : Z) :
  Earnings.safe_earnings_date yf_calendar ticker = Ok (Some (Earnings.Timestamp ts))
  <->
  exists rows l c vs,
    yf_calendar ticker = Earnings.CalFrame rows
    /\ Earnings.frame_empty rows = false
    /\ filter (fun r => String.eqb "Earnings Date" (fst r)) rows = [(l, c :: vs)]
    /\ (c = Earnings.Scalar (Earnings.Stamp ts)
        \/ exists others, c = Earnings.Seq (Earnings.Stamp ts :: others)).
Proof.
  unfold Earnings.safe_earnings_date, Earnings.try_body. split.
  - destruct (yf_calendar ticker) as [| | rows]; simpl; try discriminate.
    destruct (Earnings.frame_empty rows) eqn:Ee; simpl; [discriminate |].
    destruct (Earnings.in_index "Earnings Date" rows) eqn:Ei; simpl; [| discriminate].
    unfold Earnings.loc_values0, Earnings.labelled.
    destruct (filter (fun r => String.eqb "Earnings Date" (fst r)) rows)
      as [| [l vs] [| r2 more]] eqn:Ef; simpl; try discriminate.
    + destruct vs as [| c vs]; simpl; [discriminate |].
      intros H. exists rows, l, c, vs.
      split; [reflexivity |]. split; [exact Ee |]. split; [exact Ef |].
      destruct c as [[t | | |] | [| [t | | |] others] | row]; simpl in H; try discriminate;
        first [ left; now injection H as ->
              | right; exists others; now injection H as ->
              | destruct (Earnings.scalars_of row) as [items |]; simpl in H;
                [| discriminate];
                destruct (Earnings.to_datetime_items items); discriminate ].
    + destruct (Earnings.scalars_of vs) as [items |]; simpl; [| discriminate].
      destruct (Earnings.to_datetime_items items); discriminate.
  - intros (rows & l & c & vs & -> & Ee & Ef & Hc). rewrite Ee. simpl.
    assert (Hi : Earnings.in_index "Earnings Date" rows = true).
    { apply labelled_in_index. unfold Earnings.labelled. rewrite Ef. discriminate. }
    rewrite Hi. unfold Earnings.loc_values0, Earnings.labelled. rewrite Ef.
    destruct Hc as [-> | [others ->]]; reflexivity.
Qed.

Lemma rows_of_ok_iff (today : Z) (yf_calendar : string -> Earnings.calendar)
      (watchlist : list string) :
  (exists rows, Earnings.rows_of today yf_calendar watchlist = Ok rows)
  <-> Vocabulary.scalar_dates yf_calendar watchlist.
Proof.
  unfold Vocabulary.scalar_dates.
  induction watchlist as [| tic rest IH]; simpl.
  - split; [intros _ tic [] | intros _; now exists []].
  - destruct (safe_earnings_date_returns yf_calendar tic) as [r Hr]. rewrite Hr. simpl.
    assert (Hfail : forall x, r = Some x -> (forall ts, x <> Earnings.Timestamp ts) ->
              ~ (forall t, tic = t \/ In t rest ->
                   Earnings.safe_earnings_date yf_calendar t = Ok None
                   \/ exists ts, Earnings.safe_earnings_date yf_calendar t
                                  = Ok (Some (Earnings.Timestamp ts)))).
    { intros x -> Hx H. destruct (H tic (or_introl eq_refl)) as [E | [ts E]];
        rewrite Hr in E; [discriminate |]. injection E as ->. now apply (Hx ts). }
    assert (Hok : (r = None \/ exists ts, r = Some (Earnings.Timestamp ts)) ->
              ((exists rows, Earnings.rows_of today yf_calendar rest = Ok rows) <->
               (forall t, tic = t \/ In t rest ->
                   Earnings.safe_earnings_date yf_calendar t = Ok None
                   \/ exists ts, Earnings.safe_earnings_date yf_calendar t
                                  = Ok (Some (Earnings.Timestamp ts))))).
    { intros Hr'. rewrite IH. split.
      - intros H t [<- | Ht]; [| now apply H].
        rewrite Hr. destruct Hr' as [-> | [ts ->]]; [now left | right; now exists ts].
      - intros H t Ht. apply H. now right. }
    destruct r as [[ts | | items] |]; simpl.
    + rewrite <- Hok by (right; now exists ts).
      destruct (Earnings.rows_of today yf_calendar rest) as [rows | e]; simpl.
      * split; intros _; eexists; reflexivity.
      * split; intros [rows H]; discriminate.
    + split; [intros [rows H]; discriminate |].
      intros H. exfalso. apply (Hfail _ eq_refl); [discriminate | exact H].
    + split; [intros [rows H]; discriminate |].
      intros H. exfalso. apply (Hfail _ eq_refl); [discriminate | exact H].
    + rewrite <- Hok by now left.
      destruct (Earnings.rows_of today yf_calendar rest) as [rows | e]; simpl.
      * split; intros _; eexists; reflexivity.
      * split; intros [rows H]; discriminate.
Qed.

Lemma rows_of_shape (today : Z) (yf_calendar : string -> Earnings.calendar)
      (watchlist : list string) (rows : list Earnings.EarnRow) :
  Earnings.rows_of today yf_calendar watchlist = Ok rows ->
  map Earnings.ticker rows = watchlist
  /\ Forall (fun r => Earnings.days_until r
                      = option_map (fun d => (d - today)%Z) (Earnings.earnings_date r)) rows.
Proof.
  revert rows. induction watchlist as [| tic rest IH]; simpl; intros rows H.
  - injection H as <-. split; [reflexivity | constructor].
  - destruct (Earnings.safe_earnings_date yf_calendar tic) as [r | e]; simpl in H;
      [| discriminate].
    destruct (Earnings.earn_row today tic r) as [row | e] eqn:Er; simpl in H; [| discriminate].
    destruct (Earnings.rows_of today yf_calendar rest) as [rs | e]; simpl in H; [| discriminate].
    injection H as <-. destruct (IH rs eq_refl) as [Hm Hf].
    assert (Hrow : Earnings.ticker row = tic
                   /\ Earnings.days_until row
                      = option_map (fun d => (d - today)%Z) (Earnings.earnings_date row)).
    { destruct r as [[ts | | items] |]; simpl in Er; try discriminate;
        injection Er as <-; split; reflexivity. }
    destruct Hrow as [Ht Hd]. split; [simpl; now rewrite Ht, Hm | now constructor].
Qed.

(** X8: when the earnings rows are built, there is one row per ticker, in
    the order of the watchlist, and in every row [days_until] is absent
    exactly when the date is absent and is otherwise the date minus today. *)
Theorem earnings_rows_follow_watchlist
        (today : Z) (yf_calendar : string -> Earnings.calendar)
        (watchlist : list string) (rows : list Earnings.EarnRow) :
  Earnings.rows_of today yf_calendar watchlist = Ok rows ->
  map Earnings.ticker rows = watchlist
  /\ Forall (fun r => Earnings.days_until r
                      = option_map (fun d => (d - today)%Z) (Earnings.earnings_date r)) rows.
Proof. exact (rows_of_shape today yf_calendar watchlist rows). Qed.

Lemma earnings_rows_follow_watchlist_witness :
  Earnings.rows_of 100
    (fun t => if String.eqb t "AAPL"
              then Earnings.CalFrame
                     [("Earnings Date", [Earnings.Scalar (Earnings.Stamp 8899200000000)])]
              else Earnings.CalOther)
    ["AAPL"; "MSFT"]
  = Ok [Earnings.mkEarnRow "AAPL" (Some 103%Z) (Some 3%Z);
        Earnings.mkEarnRow "MSFT" None None]
  /\ map Earnings.ticker
       [Earnings.mkEarnRow "AAPL" (Some 103%Z) (Some 3%Z);
        Earnings.mkEarnRow "MSFT" None None] = ["AAPL"; "MSFT"].
Proof.
  assert (H : Earnings.rows_of 100
    (fun t => if String.eqb t "AAPL"
              then Earnings.CalFrame
                     [("Earnings Date", [Earnings.Scalar (Earnings.Stamp 8899200000000)])]
              else Earnings.CalOther)
    ["AAPL"; "MSFT"]
  = Ok [Earnings.mkEarnRow "AAPL" (Some 103%Z) (Some 3%Z);
        Earnings.mkEarnRow "MSFT" None None]) by reflexivity.
  split; [exact H |].
  exact (proj1 (earnings_rows_follow_watchlist _ _ _ _ H)).
Defined.

(** X9: for at least one earnings record the alert is computed.  It is
    [none] when no record has a present date within the next seven days;
    otherwise it lists the tickers of exactly those records, each as often
    as it is recorded, ordered by date and then by ticker. *)
Theorem earnings_alert_of_records (today : Z) (recs : list (string * option Z)) :
  recs <> [] ->
  exists a, Earnings.earnings_alert_of today recs = Ok a
    /\ match a with
       | Earnings.none =>
           forall r, In r (map (Earnings.record_row today) recs) -> ~ Earnings.due today r
       | Earnings.upcoming tickers =>
           exists soon,
             soon <> [] /\ tickers = map Earnings.ticker soon
             /\ (forall r, In r soon <->
                           In r (map (Earnings.record_row today) recs) /\ Earnings.due today r)
             /\ Permutation soon
                  (filter Earnings.in_next_7d (map (Earnings.record_row today) recs))
             /\ StronglySorted (le_of Earnings.earn_leb) soon
       end.
Proof.
  intros Hne.
  destruct (earnings_alert_nonempty_records today recs Hne)
    as (soon & E & Hperm & Hs & Hin & _).
  exists (Earnings.earnings_banner soon). split; [exact E |].
  destruct soon as [| r0 rest]; simpl.
  - intros r Hr Hd. apply (proj2 (Hin r)). now split.
  - exists (r0 :: rest). repeat split; try assumption; try discriminate; apply Hin; assumption.
Qed.

Lemma earnings_alert_of_records_witness :
  [("NVDA", Some 103%Z); ("AAPL", Some 110%Z); ("MSFT", None)] <> []
  /\ exists a,
      Earnings.earnings_alert_of 100
        [("NVDA", Some 103%Z); ("AAPL", Some 110%Z); ("MSFT", None)] = Ok a
      /\ a = Earnings.upcoming ["NVDA"].
Proof.
  assert (H : [("NVDA", Some 103%Z); ("AAPL", Some 110%Z); ("MSFT", @None Z)] <> [])
    by discriminate.
  split; [exact H |].
  destruct (earnings_alert_of_records 100 _ H) as [a [E _]].
  exists a. split; [exact E |].
  vm_compute in E. now injection E as <-.
Defined.

(** X10: with a calendar of at least one event, the whole evaluation
    completes exactly when the watchlist is not empty and the resolver
    gives, for each of its tickers, a timestamp or [None]; on [NaT] (a
    missing cell) and on an index of dates lines 75-76 raise. *)
Theorem evaluate_completes_iff
        (today now : Z) (events : list Macro.MacroEvent)
        (yf_calendar : string -> Earnings.calendar)
        (yf_info : string -> result (option string))
        (watchlist : list string) :
  events <> [] ->
  ((exists out, evaluate today now events yf_calendar yf_info watchlist = Ok out)
   <-> watchlist <> [] /\ Vocabulary.scalar_dates yf_calendar watchlist).
Proof.
  intros Hev. unfold evaluate. rewrite (macro_df_nonempty events Hev). cbn [bind].
  pose proof (rows_of_ok_iff today yf_calendar watchlist) as Hrows.
  destruct (Earnings.rows_of today yf_calendar watchlist) as [rows | e] eqn:Er; cbn [bind].
  - destruct (rows_of_shape _ _ _ _ Er) as [Hm _].
    destruct watchlist as [| tic rest].
    + destruct rows; [| discriminate]. simpl.
      split; [intros [out H]; discriminate | intros [H _]; congruence].
    + destruct rows as [| r rs]; [discriminate |].
      rewrite (earn_df_nonempty (r :: rs)) by discriminate. cbn [bind].
      unfold Earnings.soon_earn_7d. cbn [get_label columns].
      replace (Py.mem "days_until" ["ticker"; "earnings_date"; "days_until"])
        with true by reflexivity.
      cbn [bind].
      destruct (compute_nonempty (tic :: rest) (Exposure.get_sector yf_info))
        as (tag & c & rest' & Ec & _); [discriminate |].
      rewrite Ec. cbn [bind].
      split; [| intros _; eexists; reflexivity].
      intros _. split; [discriminate |]. apply Hrows. now exists (r :: rs).
  - split; [intros [out H]; discriminate |].
    intros [_ Hs]. apply Hrows in Hs. destruct Hs as [rows H]. discriminate.
Qed.

Lemma evaluate_completes_iff_witness :
  Macro.macro_events 0 <> []
  /\ ((exists out, evaluate 0 0 (Macro.macro_events 0)
                     (fun _ => Earnings.CalFrame [("Earnings Date", [Earnings.Scalar Earnings.NaN])])
                     (fun _ => Ok None) ["AAPL"] = Ok out)
      <-> ["AAPL"] <> []
          /\ Vocabulary.scalar_dates
               (fun _ => Earnings.CalFrame [("Earnings Date", [Earnings.Scalar Earnings.NaN])]) ["AAPL"]).
Proof.
  assert (H : Macro.macro_events 0 <> []) by (simpl; discriminate).
  split; [exact H |].
  exact (evaluate_completes_iff 0 0 (Macro.macro_events 0) _ _ ["AAPL"] H).
Defined.

(** ** Exposure *)

Lemma compute_nonempty_eq (watchlist : list string) (sector_of : string -> option string) :
  watchlist <> [] ->
  Exposure.compute watchlist sector_of =
  Ok (match Exposure.value_counts (Exposure.watchlist_tags sector_of watchlist) with
      | (t, c) :: rest =>
          Exposure.mkSummary ((t, c) :: rest) t
            (Qmake (Z.of_nat c) (Pos.of_nat (Nat.max (List.length watchlist) 1)))
      | [] => Exposure.mkSummary [] "unknown" (Qmake 0 1)
      end).
Proof.
  intros Hne. unfold Exposure.compute.
  rewrite (all_tags_nonempty sector_of watchlist Hne). cbn [bind].
  destruct (Exposure.value_counts (Exposure.watchlist_tags sector_of watchlist))
    as [| [t c] rest]; [reflexivity |].
  unfold Exposure.true_div.
  destruct (Nat.max (List.length watchlist) 1) eqn:E; [lia | reflexivity].
Qed.

Lemma compute_ok_nonempty (watchlist : list string) (sector_of : string -> option string)
      (s : Exposure.ExposureSummary) :
  Exposure.compute watchlist sector_of = Ok s -> watchlist <> [].
Proof. destruct watchlist; [discriminate | discriminate]. Qed.

Lemma tally_count_of (t : string) (l : list string) :
  Exposure.count_of t (Exposure.tally l) = Exposure.occurrences t l.
Proof. unfold Exposure.tally. now rewrite count_of_fold. Qed.

Lemma tally_NoDup (l : list string) : NoDup (map fst (Exposure.tally l)).
Proof.
  unfold Exposure.tally.
  exact (proj1 (fold_count_invariant l [] (NoDup_nil _) (Forall_nil _))).
Qed.

Lemma count_of_notin (t : string) (acc : list (string * nat)) :
  ~ In t (map fst acc) -> Exposure.count_of t acc = 0.
Proof.
  induction acc as [| [k c] rest IH]; simpl; intros H; [reflexivity |].
  destruct (String.eqb_spec k t) as [-> | Hk]; [exfalso; apply H; now left |].
  apply IH. intros Hin. apply H. now right.
Qed.

Lemma count_of_perm (t : string) (l l' : list (string * nat)) :
  NoDup (map fst l) -> Permutation l l' ->
  Exposure.count_of t l = Exposure.count_of t l'.
Proof.
  intros Hn Hp. revert Hn.
  induction Hp as [| [k c] l l' Hp IH | [k1 c1] [k2 c2] l | l l' l'' H1 IH1 H2 IH2];
    intros Hn; simpl.
  - reflexivity.
  - inversion Hn; subst. destruct (String.eqb k t); [reflexivity | now apply IH].
  - inversion Hn as [| ? ? Hnotin _]; subst.
    destruct (String.eqb_spec k1 t) as [-> | H1], (String.eqb_spec k2 t) as [-> | H2];
      try reflexivity.
    exfalso. apply Hnotin. now left.
  - rewrite IH1 by exact Hn. apply IH2.
    eapply Permutation_NoDup; [apply Permutation_map, H1 | exact Hn].
Qed.

Lemma value_counts_count_of (t : string) (l : list string) :
  Exposure.count_of t (Exposure.value_counts l) = Exposure.occurrences t l.
Proof.
  unfold Exposure.value_counts. rewrite <- tally_count_of.
  symmetry. apply count_of_perm; [apply tally_NoDup |].
  apply Permutation_sym, stable_sort_perm.
Qed.

Lemma value_counts_NoDup (l : list string) : NoDup (map fst (Exposure.value_counts l)).
Proof.
  unfold Exposure.value_counts.
  eapply Permutation_NoDup; [| apply tally_NoDup].
  apply Permutation_map, Permutation_sym, stable_sort_perm.
Qed.

(** X11: for a watchlist with at least one ticker the summary is computed:
    the dominant tag heads the counts, its count is the number of tickers
    that carry it and at least that of any other tag, and the share is that
    count over the number of tickers, above 0 and at most 1. *)
Theorem exposure_share_of_nonempty_watchlist
        (watchlist : list string) (sector_of : string -> option string) :
  watchlist <> [] ->
  exists s c rest,
    Exposure.compute watchlist sector_of = Ok s
    /\ Exposure.tag_counts s = (Exposure.dominant_tag s, c) :: rest
    /\ c = Exposure.occurrences (Exposure.dominant_tag s)
             (Exposure.watchlist_tags sector_of watchlist)
    /\ (forall t' c', In (t', c') rest -> c' <= c)
    /\ (Exposure.dominant_share s == Qmake (Z.of_nat c) (Pos.of_nat (List.length watchlist)))%Q
    /\ (0 < Exposure.dominant_share s)%Q /\ (Exposure.dominant_share s <= 1)%Q.
Proof.
  intros Hne.
  destruct (compute_nonempty watchlist sector_of Hne) as (tag & c & rest & E & Hc & Hb & Hmax).
  destruct (compute_nonempty_share watchlist sector_of Hne) as (s' & E' & Hpos & Hle).
  rewrite E in E'. injection E' as <-.
  eexists. exists c, rest. split; [exact E |]. cbn [Exposure.tag_counts Exposure.dominant_tag].
  split; [reflexivity |]. split; [exact Hc |]. split; [exact Hmax |].
  split; [| split; assumption].
  cbn [Exposure.dominant_share].
  replace (Nat.max (List.length watchlist) 1) with (List.length watchlist) by lia.
  reflexivity.
Qed.

Lemma exposure_share_of_nonempty_watchlist_witness :
  ["AAPL"; "XOM"; "MSFT"] <> []
  /\ exists s c rest,
    Exposure.compute ["AAPL"; "XOM"; "MSFT"]
      (fun t => if String.eqb t "XOM" then Some "Energy" else Some "Technology") = Ok s
    /\ Exposure.tag_counts s = (Exposure.dominant_tag s, c) :: rest
    /\ c = Exposure.occurrences (Exposure.dominant_tag s)
             (Exposure.watchlist_tags
                (fun t => if String.eqb t "XOM" then Some "Energy" else Some "Technology")
                ["AAPL"; "XOM"; "MSFT"])
    /\ (forall t' c', In (t', c') rest -> c' <= c)
    /\ (Exposure.dominant_share s == Qmake (Z.of_nat c) 3)%Q
    /\ (0 < Exposure.dominant_share s)%Q /\ (Exposure.dominant_share s <= 1)%Q.
Proof.
  assert (H : ["AAPL"; "XOM"; "MSFT"] <> []) by discriminate.
  split; [exact H |].
  exact (exposure_share_of_nonempty_watchlist ["AAPL"; "XOM"; "MSFT"]
           (fun t => if String.eqb t "XOM" then Some "Energy" else Some "Technology") H).
Defined.

(** X12: in the summary every tag is counted once, with the number of
    tickers of the watchlist that carry it (0 for a tag that is not
    listed), and the counts are listed from the highest down. *)
Theorem tag_counts_are_occurrences
        (watchlist : list string) (sector_of : string -> option string)
        (s : Exposure.ExposureSummary) :
  Exposure.compute watchlist sector_of = Ok s ->
  NoDup (map fst (Exposure.tag_counts s))
  /\ (forall t, Exposure.count_of t (Exposure.tag_counts s)
                = Exposure.occurrences t (Exposure.watchlist_tags sector_of watchlist))
  /\ StronglySorted (fun a b => snd b <= snd a) (Exposure.tag_counts s).
Proof.
  intros E. pose proof (compute_ok_nonempty _ _ _ E) as Hne.
  rewrite (compute_nonempty_eq watchlist sector_of Hne) in E.
  pose proof (value_counts_NoDup (Exposure.watchlist_tags sector_of watchlist)) as Hn.
  pose proof (fun t => value_counts_count_of t (Exposure.watchlist_tags sector_of watchlist))
    as Hc.
  assert (Hs : StronglySorted (fun a b => snd b <= snd a)
                 (Exposure.value_counts (Exposure.watchlist_tags sector_of watchlist))).
  { unfold Exposure.value_counts.
    pose proof (stable_sort_strongly Exposure.count_geb count_geb_total count_geb_trans
                  (Exposure.tally (Exposure.watchlist_tags sector_of watchlist))) as H.
    eapply (StronglySorted_map _ _ (fun x => x)) in H.
    - rewrite map_id in H. exact H.
    - intros a b Hab. unfold le_of, Exposure.count_geb in Hab. now apply Nat.leb_le. }
  destruct (Exposure.value_counts (Exposure.watchlist_tags sector_of watchlist))
    as [| [t c] rest]; injection E as <-; cbn [Exposure.tag_counts]; auto.
Qed.

Lemma tag_counts_are_occurrences_witness :
  Exposure.compute ["AAPL"; "JNJ"] (fun t => if String.eqb t "JNJ" then Some "Health Care"
                                             else Some "Technology")
  = Ok (Exposure.mkSummary [("rate-sensitive", 1); ("growth", 1); ("defensive", 1)]
          "rate-sensitive" (Qmake 1 2))
  /\ NoDup (map fst [("rate-sensitive", 1); ("growth", 1); ("defensive", 1)]).
Proof.
  assert (H : Exposure.compute ["AAPL"; "JNJ"]
                (fun t => if String.eqb t "JNJ" then Some "Health Care" else Some "Technology")
              = Ok (Exposure.mkSummary [("rate-sensitive", 1); ("growth", 1); ("defensive", 1)]
                      "rate-sensitive" (Qmake 1 2))) by reflexivity.
  split; [exact H |].
  exact (proj1 (tag_counts_are_occurrences _ _ _ H)).
Defined.

Lemma fold_count_repeat (u : string) (n k : nat) :
  fold_left (fun a t => Exposure.count_into t a) (repeat u n) [(u, k)] = [(u, k + n)].
Proof.
  revert k. induction n as [| n IH]; intros k; simpl.
  - now rewrite Nat.add_0_r.
  - rewrite String.eqb_refl, IH. f_equal. f_equal. lia.
Qed.

Lemma tally_repeat (u : string) (n : nat) :
  Exposure.tally (repeat u (S n)) = [(u, S n)].
Proof. unfold Exposure.tally. simpl. now rewrite fold_count_repeat. Qed.

Lemma no_sector_data_tags (yf_info : string -> result (option string))
      (watchlist : list string) :
  Vocabulary.no_sector_data yf_info watchlist ->
  Exposure.watchlist_tags (Exposure.get_sector yf_info) watchlist
  = repeat "unknown" (List.length watchlist).
Proof.
  unfold Exposure.watchlist_tags.
  induction watchlist as [| tic rest IH]; intros H; simpl; [reflexivity |].
  rewrite IH by (intros t Ht; apply H; now right).
  unfold Exposure.get_sector.
  destruct (H tic (or_introl eq_refl)) as [[e ->] | ->]; reflexivity.
Qed.

(** X13: when the upstream gives no sector for any ticker of a non-empty
    watchlist (it raises, or has none), every ticker is tagged unknown: the
    only count is that of unknown, the number of tickers, the dominant tag
    is unknown and the share is 1. *)
Theorem no_sector_data_gives_unknown
        (yf_info : string -> result (option string)) (watchlist : list string) :
  watchlist <> [] ->
  Vocabulary.no_sector_data yf_info watchlist ->
  exists s, Exposure.compute watchlist (Exposure.get_sector yf_info) = Ok s
    /\ Exposure.tag_counts s = [("unknown", List.length watchlist)]
    /\ Exposure.dominant_tag s = "unknown"
    /\ (Exposure.dominant_share s == 1)%Q.
Proof.
  intros Hne Hno.
  rewrite (compute_nonempty_eq watchlist _ Hne), (no_sector_data_tags _ _ Hno).
  destruct watchlist as [| tic rest]; [congruence |].
  cbn [List.length]. unfold Exposure.value_counts. rewrite tally_repeat.
  cbn [stable_sort insert_sorted].
  eexists. split; [reflexivity |].
  cbn [Exposure.tag_counts Exposure.dominant_tag Exposure.dominant_share].
  split; [reflexivity |]. split; [reflexivity |].
  replace (Nat.max (S (List.length rest)) 1) with (S (List.length rest)) by lia.
  unfold Qeq. cbn [Qnum Qden].
  rewrite <- Pos.of_nat_succ, Zpos_P_of_succ_nat. lia.
Qed.

Lemma no_sector_data_gives_unknown_witness :
  ["AAPL"; "MSFT"] <> []
  /\ Vocabulary.no_sector_data (fun _ => Raise OtherError) ["AAPL"; "MSFT"]
  /\ exists s,
      Exposure.compute ["AAPL"; "MSFT"] (Exposure.get_sector (fun _ => Raise OtherError))
      = Ok s
      /\ Exposure.tag_counts s = [("unknown", 2)]
      /\ Exposure.dominant_tag s = "unknown"
      /\ (Exposure.dominant_share s == 1)%Q.
Proof.
  assert (H : ["AAPL"; "MSFT"] <> []) by discriminate.
  assert (Hno : Vocabulary.no_sector_data (fun _ => Raise OtherError) ["AAPL"; "MSFT"])
    by (intros t _; left; now exists OtherError).
  split; [exact H |]. split; [exact Hno |].
  exact (no_sector_data_gives_unknown (fun _ => Raise OtherError) ["AAPL"; "MSFT"] H Hno).
Defined.

(** *** Order of the watchlist *)

Lemma watchlist_tags_perm (sector_of : string -> option string) (t : string)
      (w w' : list string) :
  Permutation w w' ->
  Exposure.occurrences t (Exposure.watchlist_tags sector_of w)
  = Exposure.occurrences t (Exposure.watchlist_tags sector_of w').
Proof.
  unfold Exposure.watchlist_tags.
  induction 1 as [| x l l' H IH | x y l | l l' l'' H1 IH1 H2 IH2]; simpl.
  - reflexivity.
  - rewrite !occurrences_app, IH. reflexivity.
  - rewrite !occurrences_app. lia.
  - now rewrite IH1.
Qed.

Lemma head_count_is_max (l : list string) (t : string) (c : nat) (rest : list (string * nat)) :
  Exposure.value_counts l = (t, c) :: rest ->
  c = Exposure.occurrences t l /\ forall t', Exposure.occurrences t' l <= c.
Proof.
  intros E.
  pose proof (value_counts_count_of t l) as Ht. rewrite E in Ht. simpl in Ht.
  rewrite String.eqb_refl in Ht. split; [exact Ht |].
  intros t'. rewrite <- (value_counts_count_of t' l), E. simpl.
  destruct (String.eqb t t'); [lia |].
  pose proof (value_counts_NoDup l) as Hn. rewrite E in Hn.
  destruct (in_dec string_dec t' (map fst rest)) as [Hin | Hout].
  - apply in_map_iff in Hin as [[k c'] [Hk Hin]]. simpl in Hk. subst k.
    inversion Hn as [| ? ? _ Hn']; subst.
    rewrite (count_of_In t' c' rest Hn' Hin).
    pose proof (stable_sort_strongly Exposure.count_geb count_geb_total count_geb_trans
                  (Exposure.tally l)) as Hs.
    unfold Exposure.value_counts in E. rewrite E in Hs.
    pose proof (StronglySorted_head_least _ _ _ Hs (t', c') Hin) as Hle.
    unfold le_of, Exposure.count_geb in Hle. simpl in Hle. now apply Nat.leb_le.
  - rewrite (count_of_notin t' rest Hout). lia.
Qed.

(** X14: the counts and the share do not depend on the order of the
    watchlist: two watchlists with the same tickers in another order give,
    for every tag, the same count, and the same share. *)
Theorem exposure_counts_ignore_order
        (sector_of : string -> option string) (w w' : list string)
        (s s' : Exposure.ExposureSummary) :
  Permutation w w' ->
  Exposure.compute w sector_of = Ok s ->
  Exposure.compute w' sector_of = Ok s' ->
  (forall t, Exposure.count_of t (Exposure.tag_counts s)
             = Exposure.count_of t (Exposure.tag_counts s'))
  /\ (Exposure.dominant_share s == Exposure.dominant_share s')%Q.
Proof.
  intros Hp E E'.
  pose proof (compute_ok_nonempty _ _ _ E) as Hne.
  pose proof (compute_ok_nonempty _ _ _ E') as Hne'.
  rewrite (compute_nonempty_eq w sector_of Hne) in E.
  rewrite (compute_nonempty_eq w' sector_of Hne') in E'.
  pose proof (fun t => value_counts_count_of t (Exposure.watchlist_tags sector_of w)) as Hc.
  pose proof (fun t => value_counts_count_of t (Exposure.watchlist_tags sector_of w')) as Hc'.
  pose proof (fun t => watchlist_tags_perm sector_of t w w' Hp) as Hocc.
  pose proof (Permutation_length Hp) as Hlen.
  pose proof (head_count_is_max (Exposure.watchlist_tags sector_of w)) as Hmax.
  pose proof (head_count_is_max (Exposure.watchlist_tags sector_of w')) as Hmax'.
  pose proof (tally_not_nil _ (watchlist_tags_nonempty sector_of w Hne)) as Hnil.
  pose proof (tally_not_nil _ (watchlist_tags_nonempty sector_of w' Hne')) as Hnil'.
  unfold Exposure.value_counts in Hnil, Hnil'.
  pose proof (stable_sort_nil_iff Exposure.count_geb
                (Exposure.tally (Exposure.watchlist_tags sector_of w))) as Hn1.
  pose proof (stable_sort_nil_iff Exposure.count_geb
                (Exposure.tally (Exposure.watchlist_tags sector_of w'))) as Hn2.
  unfold Exposure.value_counts in *.
  destruct (stable_sort Exposure.count_geb (Exposure.tally (Exposure.watchlist_tags sector_of w)))
    as [| [t c] rest]; [exfalso; now apply Hnil, Hn1 |].
  destruct (stable_sort Exposure.count_geb (Exposure.tally (Exposure.watchlist_tags sector_of w')))
    as [| [t' c'] rest']; [exfalso; now apply Hnil', Hn2 |].
  injection E as <-. injection E' as <-. cbn [Exposure.tag_counts Exposure.dominant_share].
  split.
  - intros k. now rewrite Hc, Hc', Hocc.
  - destruct (Hmax t c rest eq_refl) as [Hc1 Hm1].
    destruct (Hmax' t' c' rest' eq_refl) as [Hc2 Hm2].
    assert (Ecc : c = c').
    { pose proof (Hm1 t'). pose proof (Hm2 t). rewrite Hocc in *. lia. }
    rewrite Ecc, Hlen. apply Qeq_refl.
Qed.

Lemma exposure_counts_ignore_order_witness :
  Permutation ["JNJ"; "CAT"] ["CAT"; "JNJ"]
  /\ exists s s',
      Exposure.compute ["JNJ"; "CAT"]
        (fun t => if String.eqb t "JNJ" then Some "Health Care" else Some "Industrials") = Ok s
      /\ Exposure.compute ["CAT"; "JNJ"]
        (fun t => if String.eqb t "JNJ" then Some "Health Care" else Some "Industrials") = Ok s'
      /\ (Exposure.dominant_share s == Exposure.dominant_share s')%Q
      /\ Exposure.dominant_tag s = "defensive"
      /\ Exposure.dominant_tag s' = "cyclical".
Proof.
  assert (Hp : Permutation ["JNJ"; "CAT"] ["CAT"; "JNJ"]) by apply perm_swap.
  split; [exact Hp |].
  eexists. eexists.
  split; [reflexivity |]. split; [reflexivity |].
  split; [| split; reflexivity].
  exact (proj2 (exposure_counts_ignore_order
                  (fun t => if String.eqb t "JNJ" then Some "Health Care" else Some "Industrials")
                  ["JNJ"; "CAT"] ["CAT"; "JNJ"] _ _ Hp eq_refl eq_refl)).
Defined.

(** *** Which tags can be dominant *)

Lemma hd_stable_sort_first_max (l : list (string * nat)) :
  hd_error (stable_sort Exposure.count_geb l) = Vocabulary.first_max l.
Proof.
  induction l as [| x t IH]; simpl; [reflexivity |].
  rewrite <- IH.
  destruct (stable_sort Exposure.count_geb t) as [| h s]; simpl; [reflexivity |].
  now destruct (Exposure.count_geb x h).
Qed.

Lemma first_max_In (l : list (string * nat)) (m : string * nat) :
  Vocabulary.first_max l = Some m -> In m l.
Proof.
  revert m. induction l as [| x t IH]; simpl; intros m; [discriminate |].
  destruct (Vocabulary.first_max t) as [m' |].
  - destruct (Exposure.count_geb x m'); intros H; injection H as <-; [now left |].
    right. now apply IH.
  - intros H. injection H as <-. now left.
Qed.

Lemma precedes_count_into_other (a b t : string) (acc : list (string * nat)) :
  t <> a -> t <> b ->
  Vocabulary.precedes a b (Exposure.count_into t acc) = Vocabulary.precedes a b acc.
Proof.
  intros Ha Hb. induction acc as [| [k c] rest IH]; simpl.
  - destruct (String.eqb_spec t a); [congruence |].
    destruct (String.eqb_spec t b); [congruence | reflexivity].
  - destruct (String.eqb k t); simpl; [reflexivity |].
    now rewrite IH.
Qed.

Lemma precedes_count_into_first (a b : string) (acc : list (string * nat)) :
  Vocabulary.precedes a b acc = true ->
  Vocabulary.precedes a b (Exposure.count_into a acc) = true.
Proof.
  induction acc as [| [k c] rest IH]; simpl.
  - now rewrite String.eqb_refl.
  - destruct (String.eqb k a) eqn:Ea; simpl; rewrite Ea; [reflexivity |].
    destruct (String.eqb k b); [discriminate | exact IH].
Qed.

Lemma precedes_count_into_second (a b : string) (acc : list (string * nat)) :
  a <> b ->
  Vocabulary.precedes a b acc = true -> In a (map fst acc) ->
  Vocabulary.precedes a b (Exposure.count_into b acc) = true.
Proof.
  intros Hab. induction acc as [| [k c] rest IH]; simpl; [intros _ [] |].
  destruct (String.eqb_spec k a) as [-> | Hka].
  - intros _ _. destruct (String.eqb_spec a b); [congruence |]. simpl.
    now rewrite String.eqb_refl.
  - destruct (String.eqb_spec k b) as [-> | Hkb]; [discriminate |].
    intros Hp [H | Hin]; [congruence |]. simpl.
    destruct (String.eqb_spec k a); [congruence |].
    destruct (String.eqb_spec k b); [congruence |]. now apply IH.
Qed.

Section Dominated.

Variables a b : string.
Hypothesis a_not_b : a <> b.

Lemma inv_other (t : string) (acc : list (string * nat)) :
  t <> a -> t <> b -> Vocabulary.dominated a b acc -> Vocabulary.dominated a b (Exposure.count_into t acc).
Proof.
  intros Ha Hb [Hc Hp]. split.
  - rewrite !count_of_count_into.
    destruct (String.eqb_spec t a), (String.eqb_spec t b); try congruence. lia.
  - now rewrite precedes_count_into_other.
Qed.

Lemma inv_first (acc : list (string * nat)) : Vocabulary.dominated a b acc -> Vocabulary.dominated a b (Exposure.count_into a acc).
Proof.
  intros [Hc Hp]. split.
  - rewrite !count_of_count_into, String.eqb_refl.
    destruct (String.eqb_spec a b); [congruence | lia].
  - now apply precedes_count_into_first.
Qed.

Lemma inv_pair (acc : list (string * nat)) :
  Vocabulary.dominated a b acc -> Vocabulary.dominated a b (Exposure.count_into b (Exposure.count_into a acc)).
Proof.
  intros [Hc Hp]. split.
  - rewrite !count_of_count_into, !String.eqb_refl.
    destruct (String.eqb_spec a b), (String.eqb_spec b a); try congruence. lia.
  - apply precedes_count_into_second; [exact a_not_b | |].
    + now apply precedes_count_into_first.
    + apply count_into_keys. now left.
Qed.

Lemma inv_first_max (acc : list (string * nat)) (k : string) (c : nat) :
  NoDup (map fst acc) -> Vocabulary.dominated a b acc ->
  Vocabulary.first_max acc = Some (k, c) -> k <> b.
Proof.
  revert k c. induction acc as [| [k0 c0] rest IH]; intros k c Hn [Hc Hp];
    [discriminate |].
  inversion Hn as [| ? ? Hnotin Hn']; subst.
  simpl in Hc, Hp. simpl.
  destruct (String.eqb_spec k0 a) as [-> | Hk0a].
  - destruct (String.eqb_spec a b) as [| _]; [congruence |].
    destruct (Vocabulary.first_max rest) as [[m cm] |] eqn:Em.
    + unfold Exposure.count_geb at 1. simpl.
      destruct (Nat.leb_spec cm c0) as [Hle | Hlt]; intros H; injection H as <- <-; [exact a_not_b |].
      intros ->. pose proof (first_max_In _ _ Em) as Hin.
      rewrite (count_of_In b cm rest Hn' Hin) in Hc. lia.
    + intros H. injection H as <- <-. exact a_not_b.
  - destruct (String.eqb_spec k0 b) as [-> | Hk0b]; [discriminate |].
    destruct (Vocabulary.first_max rest) as [[m cm] |] eqn:Em.
    + destruct (Exposure.count_geb (k0, c0) (m, cm)); intros H; injection H as <- <-;
        [exact Hk0b |].
      apply (IH m cm Hn' (conj Hc Hp) eq_refl).
    + intros H. injection H as <- <-. exact Hk0b.
Qed.

Lemma inv_fold_paired (l : list string) :
  Vocabulary.paired a b l -> forall acc, Vocabulary.dominated a b acc ->
  Vocabulary.dominated a b (fold_left (fun x t => Exposure.count_into t x) l acc).
Proof.
  induction 1 as [| l Hl IH | l Hl IH | t l Ha Hb Hl IH]; intros acc Hi; simpl.
  - exact Hi.
  - apply IH. now apply inv_pair.
  - apply IH. now apply inv_first.
  - apply IH. now apply inv_other.
Qed.

Lemma paired_app (l1 l2 : list string) : Vocabulary.paired a b l1 -> Vocabulary.paired a b l2 -> Vocabulary.paired a b (l1 ++ l2).
Proof. induction 1; simpl; intros H2; try constructor; auto. Qed.

Lemma paired_not_dominant (l : list string) (k : string) (c : nat) (rest : list (string * nat)) :
  Vocabulary.paired a b l -> Exposure.value_counts l = (k, c) :: rest -> k <> b.
Proof.
  intros Hp E.
  apply (inv_first_max (Exposure.tally l) k c (tally_NoDup l)).
  - unfold Exposure.tally. apply inv_fold_paired; [exact Hp |].
    split; [simpl; lia | reflexivity].
  - rewrite <- hd_stable_sort_first_max. unfold Exposure.value_counts in E. now rewrite E.
Qed.

End Dominated.

Lemma paired_occurrences (a b : string) (l : list string) :
  a <> b -> Vocabulary.paired a b l ->
  Exposure.occurrences b l <= Exposure.occurrences a l.
Proof.
  intros Hab. induction 1 as [| l Hl IH | l Hl IH | t l Ha Hb Hl IH]; simpl.
  - lia.
  - rewrite !String.eqb_refl.
    destruct (String.eqb_spec a b), (String.eqb_spec b a); try congruence. lia.
  - rewrite String.eqb_refl. destruct (String.eqb a b); lia.
  - destruct (String.eqb_spec t a), (String.eqb_spec t b); try congruence. lia.
Qed.

Ltac solve_paired :=
  repeat first [ apply Vocabulary.paired_nil
               | apply Vocabulary.paired_pair
               | apply Vocabulary.paired_first
               | apply Vocabulary.paired_other; [discriminate | discriminate |] ].

Lemma tags_of_paired (a b : string) (sector : option string) :
  (a, b) = ("rate-sensitive", "growth")
  \/ (a, b) = ("rate-sensitive", "macro-sensitive")
  \/ (a, b) = ("inflation-sensitive", "commodities") ->
  Vocabulary.paired a b (Exposure.tags_of sector).
Proof.
  intros Hab. pose proof (tags_of_cases sector) as H. simpl in H.
  destruct Hab as [E | [E | E]]; injection E as -> ->;
    repeat (destruct H as [<- | H]; [solve_paired |]); destruct H.
Qed.

Lemma watchlist_tags_paired (a b : string) (sector_of : string -> option string)
      (watchlist : list string) :
  (a, b) = ("rate-sensitive", "growth")
  \/ (a, b) = ("rate-sensitive", "macro-sensitive")
  \/ (a, b) = ("inflation-sensitive", "commodities") ->
  Vocabulary.paired a b (Exposure.watchlist_tags sector_of watchlist).
Proof.
  intros Hab. unfold Exposure.watchlist_tags.
  induction watchlist as [| tic rest IH]; simpl; [constructor |].
  apply paired_app; [now apply tags_of_paired | exact IH].
Qed.

Lemma occurrences_pos_In (t : string) (l : list string) :
  1 <= Exposure.occurrences t l -> In t l.
Proof.
  induction l as [| x r IH]; simpl; [lia |].
  destruct (String.eqb_spec x t) as [-> | Hx]; [now left |].
  intros H. right. apply IH. lia.
Qed.

Lemma tags_of_vocabulary (sector : option string) (t : string) :
  In t (Exposure.tags_of sector) -> In t Vocabulary.tag_vocabulary.
Proof.
  pose proof (tags_of_cases sector) as H. simpl in H.
  repeat (destruct H as [<- | H]; [simpl; tauto |]). destruct H.
Qed.

Lemma watchlist_tags_vocabulary (sector_of : string -> option string)
      (watchlist : list string) (t : string) :
  In t (Exposure.watchlist_tags sector_of watchlist) -> In t Vocabulary.tag_vocabulary.
Proof.
  unfold Exposure.watchlist_tags. rewrite in_flat_map.
  intros [tic [_ H]]. now apply (tags_of_vocabulary (sector_of tic)).
Qed.

(** X15: growth and macro-sensitive never outnumber rate-sensitive, nor
    commodities inflation-sensitive, each being listed only after it for
    the same ticker.  With ties going to the tag met first, the dominant tag
    is therefore rate-sensitive, cyclical, defensive, inflation-sensitive
    or unknown, and the memo speaks of mixed exposure exactly when the
    dominant tag is unknown. *)
Theorem dominant_tag_is_named_or_unknown
        (watchlist : list string) (sector_of : string -> option string)
        (s : Exposure.ExposureSummary) :
  Exposure.compute watchlist sector_of = Ok s ->
  (Exposure.count_of "growth" (Exposure.tag_counts s)
   <= Exposure.count_of "rate-sensitive" (Exposure.tag_counts s)
   /\ Exposure.count_of "macro-sensitive" (Exposure.tag_counts s)
      <= Exposure.count_of "rate-sensitive" (Exposure.tag_counts s)
   /\ Exposure.count_of "commodities" (Exposure.tag_counts s)
      <= Exposure.count_of "inflation-sensitive" (Exposure.tag_counts s))
  /\ In (Exposure.dominant_tag s)
        ["rate-sensitive"; "cyclical"; "defensive"; "inflation-sensitive"; "unknown"]
  /\ (Memo.exposure_line (Exposure.dominant_tag s)
      = "Your watchlist has mixed exposure across sectors."
      <-> Exposure.dominant_tag s = "unknown").
Proof.
  intros E. pose proof (compute_ok_nonempty _ _ _ E) as Hne.
  rewrite (compute_nonempty_eq watchlist sector_of Hne) in E.
  set (tags := Exposure.watchlist_tags sector_of watchlist) in *.
  assert (P1 : Vocabulary.paired "rate-sensitive" "growth" tags)
    by (apply watchlist_tags_paired; auto).
  assert (P2 : Vocabulary.paired "rate-sensitive" "macro-sensitive" tags)
    by (apply watchlist_tags_paired; auto).
  assert (P3 : Vocabulary.paired "inflation-sensitive" "commodities" tags)
    by (apply watchlist_tags_paired; auto).
  assert (Hcounts : forall t, Exposure.count_of t (Exposure.tag_counts s)
                              = Exposure.occurrences t tags).
  { intros t. rewrite <- value_counts_count_of.
    destruct (Exposure.value_counts tags) as [| [k c] rest]; injection E as <-; reflexivity. }
  split.
  { rewrite !Hcounts.
    split; [| split]; apply paired_occurrences; try assumption; discriminate. }
  assert (Hdom : In (Exposure.dominant_tag s)
                    ["rate-sensitive"; "cyclical"; "defensive"; "inflation-sensitive";
                     "unknown"]).
  { pose proof (tally_not_nil _ (watchlist_tags_nonempty sector_of watchlist Hne)) as Hnil.
    fold tags in Hnil.
    pose proof (stable_sort_nil_iff Exposure.count_geb (Exposure.tally tags)) as Hn.
    destruct (Exposure.value_counts tags) as [| [k c] rest] eqn:Ev.
    - exfalso. apply Hnil, Hn. exact Ev.
    - injection E as <-. cbn [Exposure.dominant_tag].
      assert (D1 : "rate-sensitive" <> "growth") by discriminate.
      assert (D2 : "rate-sensitive" <> "macro-sensitive") by discriminate.
      assert (D3 : "inflation-sensitive" <> "commodities") by discriminate.
      pose proof (paired_not_dominant _ _ D1 tags k c rest P1 Ev) as N1.
      pose proof (paired_not_dominant _ _ D2 tags k c rest P2 Ev) as N2.
      pose proof (paired_not_dominant _ _ D3 tags k c rest P3 Ev) as N3.
      assert (Hin : In (k, c) (Exposure.tally tags)).
      { apply (stable_sort_In Exposure.count_geb). unfold Exposure.value_counts in Ev.
        rewrite Ev. now left. }
      destruct (tally_In tags k c Hin) as [Hc H1]. rewrite Hc in H1.
      pose proof (watchlist_tags_vocabulary sector_of watchlist k
                    (occurrences_pos_In k tags H1)) as Hv.
      simpl in Hv. simpl. intuition congruence. }
  split; [exact Hdom |].
  simpl in Hdom.
  destruct Hdom as [<- | [<- | [<- | [<- | [<- | []]]]]]; simpl;
    split; intros H; try reflexivity; discriminate.
Qed.

Lemma dominant_tag_is_named_or_unknown_witness :
  Exposure.compute ["XOM"] (fun _ => Some "Energy")
  = Ok (Exposure.mkSummary [("inflation-sensitive", 1); ("commodities", 1)]
          "inflation-sensitive" (Qmake 1 1))
  /\ In "inflation-sensitive"
        ["rate-sensitive"; "cyclical"; "defensive"; "inflation-sensitive"; "unknown"].
Proof.
  assert (H : Exposure.compute ["XOM"] (fun _ => Some "Energy")
              = Ok (Exposure.mkSummary [("inflation-sensitive", 1); ("commodities", 1)]
                      "inflation-sensitive" (Qmake 1 1))) by reflexivity.
  split; [exact H |].
  exact (proj1 (proj2 (dominant_tag_is_named_or_unknown _ _ _ H))).
Defined.

(** ** The tags column and the copy text *)








Lemma replace_stars_head (d : ascii) (r : string) :
  Ascii.eqb d "*" = false ->
  exists x, Memo.replace_stars (String d r) = String d x.
Proof.
  intros Hd. simpl. destruct r as [| e r']; [now eexists |].
  rewrite Hd. simpl. now eexists.
Qed.

Lemma replace_stars_clean (s : string) :
  Memo.has_stars (Memo.replace_stars s) = false
  /\ forall c, Memo.has_stars (Memo.replace_stars (String c s)) = false.
Proof.
  induction s as [| d r [IH1 IH2]].
  - split; [reflexivity | intros c; reflexivity].
  - split; [apply IH2 |].
    intros c.
    change (Memo.replace_stars (String c (String d r)))
      with (if Ascii.eqb c "*" && Ascii.eqb d "*" then Memo.replace_stars r
            else String c (Memo.replace_stars (String d r))).
    destruct (Ascii.eqb c "*") eqn:Ec; simpl andb.
    + destruct (Ascii.eqb d "*") eqn:Ed; [exact IH1 |].
      destruct (replace_stars_head d r Ed) as [x Hx].
      pose proof (IH2 d) as Hd. rewrite Hx in *.
      change (Memo.has_stars (String c (String d x)))
        with ((Ascii.eqb c "*" && Ascii.eqb d "*") || Memo.has_stars (String d x)).
      rewrite Ec, Ed, Hd. reflexivity.
    + pose proof (IH2 d) as Hd.
      destruct (Memo.replace_stars (String d r)) as [| e x]; [reflexivity |].
      change (Memo.has_stars (String c (String e x)))
        with ((Ascii.eqb c "*" && Ascii.eqb e "*") || Memo.has_stars (String e x)).
      rewrite Ec, Hd. reflexivity.
Qed.

(** X17: the text of the copy box never has two stars side by side,
    whatever the tone, the event name, the dominant tag and the tickers
    are: removing the bold markers leaves none behind. *)
Theorem copy_memo_has_no_bold_marker
        (tone macro_name top_tag : string) (soon_earn_7d : list Earnings.EarnRow) :
  Memo.has_stars (Memo.copy_memo tone macro_name top_tag soon_earn_7d) = false.
Proof. unfold Memo.copy_memo. apply replace_stars_clean. Qed.

(** ** The whole evaluation *)

Lemma NoDup_map_filter {A B : Type} (g : A -> B) (f : A -> bool) (l : list A) :
  NoDup (map g l) -> NoDup (map g (filter f l)).
Proof.
  induction l as [| x t IH]; simpl; intros H; [constructor |].
  inversion H as [| ? ? Hnotin Hn]; subst.
  destruct (f x); simpl; [| now apply IH].
  constructor; [| now apply IH].
  intros Hin. apply Hnotin. apply in_map_iff in Hin as [y [Hy Hin]].
  apply filter_In in Hin as [Hin _]. rewrite <- Hy. now apply in_map.
Qed.

Lemma evaluate_earnings_alert
      (today now : Z) (events : list Macro.MacroEvent)
      (yf_calendar : string -> Earnings.calendar)
      (yf_info : string -> result (option string))
      (watchlist : list string) (out : Evaluation) :
  evaluate today now events yf_calendar yf_info watchlist = Ok out ->
  exists rows,
    Earnings.rows_of today yf_calendar watchlist = Ok rows
    /\ earnings_alert out
       = Earnings.earnings_banner
           (filter Earnings.in_next_7d (stable_sort Earnings.earn_leb rows)).
Proof.
  unfold evaluate. intros H.
  destruct (Macro.macro_df events) as [mdf | e]; [| discriminate]. cbn [bind] in H.
  destruct (Earnings.rows_of today yf_calendar watchlist) as [rows | e]; [| discriminate].
  cbn [bind] in H. exists rows. split; [reflexivity |].
  destruct rows as [| r rs]; [discriminate |].
  rewrite (earn_df_nonempty (r :: rs)) in H by discriminate. cbn [bind] in H.
  unfold Earnings.soon_earn_7d in H. cbn [get_label columns records] in H.
  replace (Py.mem "days_until" ["ticker"; "earnings_date"; "days_until"])
    with true in H by reflexivity.
  cbn [bind] in H. rewrite filter_7d_after_dropna in H.
  destruct (Exposure.compute watchlist (Exposure.get_sector yf_info)) as [s | e];
    [| discriminate].
  cbn [bind] in H. injection H as <-. reflexivity.
Qed.

(** X18: when the evaluation completes with an earnings alert, the alert
    names at least one ticker, names only tickers of the watchlist, and
    names none twice when the watchlist holds none twice. *)
Theorem earnings_alert_names_watchlist_tickers
        (today now : Z) (events : list Macro.MacroEvent)
        (yf_calendar : string -> Earnings.calendar)
        (yf_info : string -> result (option string))
        (watchlist : list string) (out : Evaluation) (tickers : list string) :
  evaluate today now events yf_calendar yf_info watchlist = Ok out ->
  earnings_alert out = Earnings.upcoming tickers ->
  tickers <> [] /\ incl tickers watchlist /\ (NoDup watchlist -> NoDup tickers).
Proof.
  intros E Ha.
  destruct (evaluate_earnings_alert _ _ _ _ _ _ _ E) as (rows & Hrows & Hb).
  destruct (rows_of_shape _ _ _ _ Hrows) as [Hm _].
  rewrite Ha in Hb.
  set (soon := filter Earnings.in_next_7d (stable_sort Earnings.earn_leb rows)) in *.
  assert (Ht : tickers = map Earnings.ticker soon /\ soon <> []).
  { destruct soon as [| r rs]; simpl in Hb; [discriminate |].
    injection Hb as ->. split; [reflexivity | discriminate]. }
  destruct Ht as [-> Hne]. split; [| split].
  - destruct soon; [congruence | discriminate].
  - intros x Hx. apply in_map_iff in Hx as [r [<- Hr]].
    subst soon. apply filter_In in Hr as [Hr _]. apply stable_sort_In in Hr.
    rewrite <- Hm. now apply in_map.
  - intros Hn. rewrite <- Hm in Hn.
    eapply Permutation_NoDup.
    + apply Permutation_map, Permutation_sym.
      subst soon. apply Permutation_filter_compat, stable_sort_perm.
    + now apply NoDup_map_filter.
Qed.

Lemma earnings_alert_names_watchlist_tickers_witness :
  exists out,
    evaluate 100 8640000000000 (Macro.macro_events 100)
      (fun t => if String.eqb t "AAPL"
                then Earnings.CalFrame
                       [("Earnings Date", [Earnings.Scalar (Earnings.Stamp 8899200000000)])]
                else Earnings.CalOther)
      (fun _ => Ok (Some "Technology")) ["AAPL"; "MSFT"] = Ok out
    /\ earnings_alert out = Earnings.upcoming ["AAPL"]
    /\ incl ["AAPL"] ["AAPL"; "MSFT"].
Proof.
  destruct (evaluate 100 8640000000000 (Macro.macro_events 100)
      (fun t => if String.eqb t "AAPL"
                then Earnings.CalFrame
                       [("Earnings Date", [Earnings.Scalar (Earnings.Stamp 8899200000000)])]
                else Earnings.CalOther)
      (fun _ => Ok (Some "Technology")) ["AAPL"; "MSFT"]) as [out | e] eqn:E.
  - exists out. split; [reflexivity |].
    assert (Ha : earnings_alert out = Earnings.upcoming ["AAPL"]).
    { pose proof E as E2. vm_compute in E2. injection E2 as <-. reflexivity. }
    split; [exact Ha |].
    exact (proj1 (proj2 (earnings_alert_names_watchlist_tickers _ _ _ _ _ _ _ _ E Ha))).
  - vm_compute in E. discriminate.
Defined.
